(** * llparse: the resumable [execute] entry point, the Pause node, table
      dispatch and the interning pools of the emission context.

    The development follows four source files of
    [node_modules/llparse/src/implementation]:

    - [bitcode/helpers/execute-builder.ts]  ([ExecuteBuilder])
    - [bitcode/node/pause.ts]               ([Pause])
    - [js/node/table-lookup.ts]             ([TableLookup])
    - [js/compilation.ts]                   ([Compilation])

    The bitcode builders emit straight-line IR with branches; each builder is
    embedded as the function that the emitted IR computes on the State
    Record.  Pointers are integers, the null pointer is [0]. *)

From Stdlib Require Import ZArith NArith Lia Ascii String HexadecimalString.
From Stdlib Require Import Strings.Byte.
From stdpp Require Import base list strings pretty.

Open Scope Z_scope.

(** ** The State Record and the execute entry point (bitcode) *)

Module Bitcode.

Definition null : Z := 0.

(** One invocation of an external callback: the callee and the two position
    arguments it received. *)
Record Event := mkEvent {
  ev_name : string;
  ev_start : Z;
  ev_end : Z;
}.

(** The record that the generated parser owns between calls.  [current] is
    the resume pointer (address of a compiled node function), [span_pos] has
    one start slot per span (null when the span is inactive) and [span_cb]
    one callback slot per span; a callback pointer is represented by the
    name of the function it points to. *)
Record State := mkState {
  current : Z;
  error : Z;
  reason : string;
  error_pos : Z;
  span_pos : list Z;
  span_cb : list string;
}.

Definition set_current (s : State) (v : Z) : State :=
  mkState v (error s) (reason s) (error_pos s) (span_pos s) (span_cb s).

Definition set_error (s : State) (v : Z) : State :=
  mkState (current s) v (reason s) (error_pos s) (span_pos s) (span_cb s).

Definition set_reason (s : State) (v : string) : State :=
  mkState (current s) (error s) v (error_pos s) (span_pos s) (span_cb s).

Definition set_error_pos (s : State) (v : Z) : State :=
  mkState (current s) (error s) (reason s) v (span_pos s) (span_cb s).

(** [bb.load(ctx.spanPosField(bb, index))]: a record without such a slot has
    no span there, which reads as inactive. *)
Definition load_span_pos (s : State) (index : nat) : Z :=
  default null (span_pos s !! index).

(** [bb.store(v, ctx.spanPosField(bb, index))] *)
Definition store_span_pos (s : State) (index : nat) (v : Z) : State :=
  mkState (current s) (error s) (reason s) (error_pos s)
          (<[index := v]> (span_pos s)) (span_cb s).

Definition load_span_cb (s : State) (index : nat) : string :=
  default EmptyString (span_cb s !! index).

(** [frontend.SpanField]: the slot index and the candidate callbacks. *)
Record SpanField := mkSpan {
  index : nat;
  callbacks : list string;
}.

(** A compiled node function receives the record, [pos], [endpos] and the
    callback invocations made so far; it returns the record as it left it,
    the extended invocation log and the node to resume at (null on the
    error path). *)
Definition NodeResult : Type := State * list Event * Z.
Definition NodeFn : Type := State -> Z -> Z -> list Event -> NodeResult.

(** What the embedding application supplies: the return code of a span
    callback, which may depend on the record it is handed, on its position
    arguments and on everything the application has seen so far. *)
Definition SpanCallback : Type :=
  string -> State -> Z -> Z -> list Event -> Z.

Module ExecuteBuilder.

(** [checkLingeringError]: [Some code] is the [error] block returning the
    persisted code, [None] is the [no_error] block. *)
Definition checkLingeringError (s : State) : option Z :=
  let code := error s in
  if code =? 0 then None else Some code.

(** [restartSpans]: one load, compare and conditional store per span. *)
Fixpoint restartSpans (spans : list SpanField) (s : State) (pos : Z) : State :=
  match spans with
  | [] => s
  | span :: rest =>
      let start := load_span_pos s (index span) in
      if start =? null
      then restartSpans rest s pos
      else restartSpans rest (store_span_pos s (index span) pos) pos
  end.

(** [buildError] *)
Definition buildError (s : State) (code endpos : Z) : State :=
  set_error_pos (set_error s code) endpos.

(** The callback a span's finalize call goes through. *)
Definition span_callback (span : SpanField) (s : State) : string :=
  match callbacks span with
  | [cb] => cb
  | _ => load_span_cb s (index span)
  end.

(** A span is active when its start slot is not null. *)
Definition is_active (s : State) (span : SpanField) : bool :=
  negb (load_span_pos s (index span) =? null).

(** The finalize call of a span: its callback, from the span's start to the
    end of the chunk. *)
Definition finalize_event (s : State) (endpos : Z) (span : SpanField) : Event :=
  mkEvent (span_callback span s) (load_span_pos s (index span)) endpos.

Section Execute.

Variable callback : SpanCallback.
Variable nodes : Z -> NodeFn.

(** [executeSpans]: [Some code] is a [span_error_i] block, which returns
    [code] from execute; [None] is the block that falls out of the loop. *)
Fixpoint executeSpans (spans : list SpanField) (s : State) (endpos : Z)
    (log : list Event) : State * list Event * option Z :=
  match spans with
  | [] => (s, log, None)
  | span :: rest =>
      let start := load_span_pos s (index span) in
      if start =? null
      then executeSpans rest s endpos log
      else
        let cb := span_callback span s in
        let call := callback cb s start endpos log in
        let log' := log ++ [mkEvent cb start endpos] in
        if call =? 0
        then executeSpans rest s endpos log'
        else (buildError s call endpos, log', Some call)
  end.

(** [build]: the body of [<prefix>_execute]. *)
Definition execute (spans : list SpanField) (s : State) (pos endpos : Z)
    (log : list Event) : State * list Event * Z :=
  match checkLingeringError s with
  | Some code => (s, log, code)
  | None =>
      let bb := restartSpans spans s pos in
      let '(s1, log1, call) := nodes (current bb) bb pos endpos log in
      if call =? null
      then (s1, log1, error s1)
      else
        let success := set_current s1 call in
        match executeSpans spans success endpos log1 with
        | (s2, log2, Some code) => (s2, log2, code)
        | (s2, log2, None) => (s2, log2, 0)
        end
  end.

(** Feeding a list of chunks [(pos, endpos)] through successive calls on one
    record; the result lists the return code of every call. *)
Fixpoint feed (spans : list SpanField) (chunks : list (Z * Z)) (s : State)
    (log : list Event) : State * list Event * list Z :=
  match chunks with
  | [] => (s, log, [])
  | (pos, endpos) :: rest =>
      let '(s1, log1, code) := execute spans s pos endpos log in
      let '(s2, log2, codes) := feed spans rest s1 log1 in
      (s2, log2, code :: codes)
  end.

(** The [success] and [error] blocks of [build], as a function of what the
    call through [current] returned. *)
Definition finish (spans : list SpanField) (endpos : Z) (r : NodeResult)
    : State * list Event * Z :=
  let '(s1, log1, call) := r in
  if call =? null
  then (s1, log1, error s1)
  else
    match executeSpans spans (set_current s1 call) endpos log1 with
    | (s2, log2, Some code) => (s2, log2, code)
    | (s2, log2, None) => (s2, log2, 0)
    end.

(** A node result with the resume pointer stored, as the [success] block
    does. *)
Definition committed (r : NodeResult) : NodeResult :=
  let '(s1, log1, call) := r in
  if call =? null then r else (set_current s1 call, log1, call).

(** The contract between [execute] and the compiled nodes, which are a
    parameter here.  On a record that holds no error and whose resume pointer
    is set, dispatch over [pos, mid) returns null exactly when it has
    persisted an error code, and dispatch over [pos, endpos) then stops in
    the same way; when it hands back a resume node, continuing there over
    [mid, endpos) does what dispatch over [pos, endpos) does. *)
Definition nodes_resume : Prop :=
  forall s pos mid endpos log s1 log1 call,
    error s = 0 -> current s <> null -> pos <= mid <= endpos ->
    nodes (current s) s pos mid log = (s1, log1, call) ->
    if call =? null
    then error s1 <> 0 /\
         nodes (current s) s pos endpos log = (s1, log1, null)
    else error s1 = 0 /\
         committed (nodes call (set_current s1 call) mid endpos log1)
         = committed (nodes (current s) s pos endpos log).

(** The chunks [pos, b1), [b1, b2), ..., [bn, endpos) that the boundaries
    [b1 ... bn] cut out of [pos, endpos). *)
Fixpoint chunks_of (pos : Z) (bounds : list Z) (endpos : Z) : list (Z * Z) :=
  match bounds with
  | [] => [(pos, endpos)]
  | mid :: rest => (pos, mid) :: chunks_of mid rest endpos
  end.

(** The boundaries lie within the input, in order. *)
Fixpoint in_order (pos : Z) (bounds : list Z) (endpos : Z) : Prop :=
  match bounds with
  | [] => pos <= endpos
  | mid :: rest => pos <= mid /\ in_order mid rest endpos
  end.

(** No span is open at a boundary: whenever the dispatch of the call that
    ends at a boundary hands back a resume node, no span's start slot is
    active.  Nothing is asked of a call whose dispatch returns null. *)
Fixpoint no_span_open_at (spans : list SpanField) (s : State) (pos : Z)
    (bounds : list Z) (log : list Event) : Prop :=
  match bounds with
  | [] => True
  | mid :: rest =>
      let bb := restartSpans spans s pos in
      let '(s1, log1, call) := nodes (current bb) bb pos mid log in
      call <> null ->
      Forall (fun span => is_active s1 span = false) spans /\
      no_span_open_at spans (set_current s1 call) mid rest log1
  end.

End Execute.

End ExecuteBuilder.

(** *** The Pause node *)

Module Pause.

(** [frontend.node.Pause]: an error code and reason, and the node to resume
    at ([otherwise], given here by the address of its compiled function). *)
Record Ref := mkRef {
  code : Z;
  reason_text : string;
  otherwise : Z;
}.

(** Modelled from the spec: [storeError] is inherited from the Error node
    ([bitcode/node/error.ts], outside the files verified here).  The spec
    describes what an Error node persists: an explicit error code, reason
    and offset in the State Record, the offset being the current
    position. *)
Definition storeError (ref : Ref) (s : State) (pos : Z) : State :=
  set_error_pos (set_reason (set_error s (code ref)) (reason_text ref)) pos.

(** [doBuild]: the compiled node function. *)
Definition doBuild (ref : Ref) : NodeFn :=
  fun s pos endpos log =>
    let bb := storeError ref s pos in
    (set_current bb (otherwise ref), log, null).

End Pause.

(** *** The base class of callback code ([Code], second part of
    [bitcode/node/pause.ts]) *)

Module Code.

(** What a method does: it returns, throws [new Error(message)], or fails
    with a TypeError on a parameter the declaration does not have. *)
Inductive Outcome (A : Type) :=
| Returned (a : A)
| ThrownError (message : string)
| ThrownTypeError.
Arguments Returned {A} a.
Arguments ThrownError {A} message.
Arguments ThrownTypeError {A}.

Definition quote : string :=
  String (Ascii false true false false false true false false) EmptyString.

Definition unknown_signature {A} (signature : string) : Outcome A :=
  ThrownError ("Unknown signature " +:+ quote +:+ signature +:+ quote).

Section Base.

(** The IR signatures of [ctx.signature.callback], the argument names and
    attributes of [../constants], and attribute lists with their [add]
    (the IR builder library). *)
Variable IRSignature : Type.
Variables callback_match callback_value callback_span : IRSignature.
Variables ARG_STATE ARG_POS ARG_ENDPOS ARG_MATCH : string.
Variables Attribute AttributeList : Type.
Variables ATTR_STATE ATTR_POS ATTR_ENDPOS ATTR_MATCH : Attribute.
Variable add : AttributeList -> Attribute -> AttributeList.

Definition getSignature (signature : string) : Outcome IRSignature :=
  if String.eqb signature "match" then Returned callback_match
  else if String.eqb signature "value" then Returned callback_value
  else if String.eqb signature "span" then Returned callback_span
  else unknown_signature signature.

Definition getParams (signature : string) : Outcome (list string) :=
  if String.eqb signature "match"
  then Returned [ARG_STATE; ARG_POS; ARG_ENDPOS]
  else if String.eqb signature "value"
  then Returned [ARG_STATE; ARG_POS; ARG_ENDPOS; ARG_MATCH]
  else if String.eqb signature "span"
  then Returned [ARG_STATE; ARG_POS; ARG_ENDPOS]
  else unknown_signature signature.

(** [decl.paramAttrs[i].add(attr)] *)
Definition add_attr (paramAttrs : list AttributeList) (i : nat)
    (attr : Attribute) : Outcome (list AttributeList) :=
  match paramAttrs !! i with
  | Some attrs => Returned (<[i := add attrs attr]> paramAttrs)
  | None => ThrownTypeError
  end.

(** The three statements shared by all cases of the switch. *)
Definition set_common (paramAttrs : list AttributeList)
    : Outcome (list AttributeList) :=
  match add_attr paramAttrs 2 ATTR_ENDPOS with
  | Returned p2 =>
      match add_attr p2 1 ATTR_POS with
      | Returned p1 => add_attr p1 0 ATTR_STATE
      | failed => failed
      end
  | failed => failed
  end.

(** [setAttributes]: the [value] case falls through into the other two. *)
Definition setAttributes (signature : string)
    (paramAttrs : list AttributeList) : Outcome (list AttributeList) :=
  if String.eqb signature "value" then
    match add_attr paramAttrs 3 ATTR_MATCH with
    | Returned p3 => set_common p3
    | failed => failed
    end
  else if String.eqb signature "match" then set_common paramAttrs
  else if String.eqb signature "span" then set_common paramAttrs
  else unknown_signature signature.

End Base.

End Code.

End Bitcode.

(** ** The JavaScript backend: emission context and table dispatch *)

Module Js.

(** Exceptions of the generator.  [assert] and [assert.strictEqual] throw an
    AssertionError; the message is [None] when the call site gives none. *)
Inductive Exception :=
| AssertionError (message : option string).

Inductive Result (A : Type) :=
| Ok (a : A)
| Throw (e : Exception).
Arguments Ok {A} a.
Arguments Throw {A} e.

(** A JavaScript [Map]: entries in insertion order, at most one per key. *)
Section JsMap.
Context {K V : Type} `{EqDecision K}.

Fixpoint map_get (m : list (K * V)) (k : K) : option V :=
  match m with
  | [] => None
  | (k', v) :: rest => if decide (k' = k) then Some v else map_get rest k
  end.

Definition map_has (m : list (K * V)) (k : K) : bool :=
  match map_get m k with Some _ => true | None => false end.

Fixpoint map_set (m : list (K * V)) (k : K) (v : V) : list (K * V) :=
  match m with
  | [] => [(k, v)]
  | (k', v') :: rest =>
      if decide (k' = k) then (k', v) :: rest else (k', v') :: map_set rest k v
  end.

Definition map_keys (m : list (K * V)) : list K := map fst m.
Definition map_values (m : list (K * V)) : list V := map snd m.
Definition map_size (m : list (K * V)) : nat := length m.

End JsMap.

(** Objects are compared by identity: a value of these types is a reference,
    and two references are the same object exactly when they are equal. *)
Definition Buffer : Type := positive.
Definition Code : Type := positive.
Definition MatchSequence : Type := positive.
Definition Node : Type := positive.
Definition Transform : Type := positive.

Inductive Signature := SigMatch | SigValue | SigSpan.

(** [frontend.code.Code], what [code.ref] holds. *)
Record FrontendCode := mkFrontendCode {
  name : string;
  signature : Signature;
}.

Record ITable := mkTable {
  table_name : string;
  table_value : list Z;
}.

(** The interning pools of [Compilation] (the state map, which none of the
    methods below touches, is left out). *)
Record Compilation := mkCompilation {
  blobs : list (Buffer * string);
  tables : list ITable;
  codeMap : list (string * Code);
  matchSequence : list (string * MatchSequence);
}.

Definition new_Compilation : Compilation := mkCompilation [] [] [] [].

Definition double_quote : string :=
  String (Ascii false true false false false true false false) EmptyString.

(** [ctx.indent(out, lines, pad)] *)
Definition indent (out lines : list string) (pad : string) : list string :=
  out ++ map (fun line => pad +:+ line) lines.

(** [hex.join(', ')] *)
Fixpoint join (sep : string) (parts : list string) : string :=
  match parts with
  | [] => EmptyString
  | [p] => p
  | p :: rest => p +:+ sep +:+ join sep rest
  end.

Section Compilation.

(** Constants of [./constants]. *)
Variables BLOB_PREFIX TABLE_PREFIX : string.

(** The object store: the frontend reference of a Code object, the bytes of a
    Buffer. *)
Variable ref : Code -> FrontendCode.
Variable bytes : Buffer -> list byte.

(** The lines that [code.build(ctx, out)] and [match.build(ctx, out)] push
    ([js/code], [js/helpers/match-sequence]). *)
Variable Code_build : Code -> list string.
Variable MatchSequence_build : MatchSequence -> list string.

Definition BLOB_GROUP_SIZE : nat := 4.

(** [value.toString(16)] *)
Definition toString16 (value : byte) : string :=
  NilEmpty.string_of_uint (N.to_hex_uint (Byte.to_N value)).

(** One element of a blob declaration. *)
Definition blob_enc (value : byte) : string :=
  let ch := String (ascii_of_byte value) EmptyString in
  let enc := "0x" +:+ toString16 value in
  let v := Byte.to_N value in
  if ((v =? 39) || (v =? 92))%N
  then "/* '\" +:+ ch +:+ "' */ " +:+ enc
  else if ((32 <=? v) && (v <=? 126))%N
  then "/* '" +:+ ch +:+ "' */ " +:+ enc
  else enc.

(** The loop over [i] in steps of [BLOB_GROUP_SIZE]: one line per group, a
    trailing comma on every line but the last. *)
Fixpoint blob_groups (blob : list byte) : list string :=
  match blob with
  | [] => []
  | a :: b :: c :: d :: ((_ :: _) as rest) =>
      ("  " +:+ join ", " (map blob_enc [a; b; c; d]) +:+ ",")
        :: blob_groups rest
  | last => ["  " +:+ join ", " (map blob_enc last)]
  end.

(** What [buildBlobs] pushes for one entry of the blob map. *)
Definition blob_artifact (blob : Buffer) (nm : string) : list string :=
  ["const " +:+ nm +:+ " = ["] ++ blob_groups (bytes blob) ++ ["];"].

Definition buildBlobs (c : Compilation) (out : list string) : list string :=
  if (map_size (blobs c) =? 0)%nat then out
  else
    fold_left (fun out '(blob, nm) => out ++ blob_artifact blob nm)
              (blobs c) out
      ++ [EmptyString].

Definition buildMatchSequence (c : Compilation) (out : list string)
    : list string :=
  if (map_size (matchSequence c) =? 0)%nat then out
  else
    fold_left (fun out m => out ++ MatchSequence_build m ++ [EmptyString])
              (map_values (matchSequence c)) out.

Definition buildMethods (c : Compilation) (out : list string) : list string :=
  let out := buildMatchSequence c out in
  fold_left (fun out code => out ++ Code_build code ++ [EmptyString])
            (map_values (codeMap c)) out.

Definition buildCode (c : Compilation) (code : Code)
    : Result (string * Compilation) :=
  let nm := name (ref code) in
  if map_has (codeMap c) nm then
    if decide (map_get (codeMap c) nm = Some code)
    then Ok ("this._" +:+ nm, c)
    else Throw (AssertionError (Some
           ("Code name conflict for " +:+ double_quote +:+ nm
              +:+ double_quote)))
  else
    Ok ("this._" +:+ nm,
        mkCompilation (blobs c) (tables c) (map_set (codeMap c) nm code)
                      (matchSequence c)).

Definition blob (c : Compilation) (value : Buffer) : string * Compilation :=
  match map_get (blobs c) value with
  | Some nm => (nm, c)
  | None =>
      let res := BLOB_PREFIX +:+ pretty (map_size (blobs c)) in
      (res, mkCompilation (map_set (blobs c) value res) (tables c)
                          (codeMap c) (matchSequence c))
  end.

Definition table (c : Compilation) (value : list Z) : string * Compilation :=
  let nm := TABLE_PREFIX +:+ pretty (length (tables c)) in
  (nm, mkCompilation (blobs c) (tables c ++ [mkTable nm value])
                     (codeMap c) (matchSequence c)).

(** What holds of the pools of a compilation that started empty (see
    [pools_ok_new], [blob_pools_ok], [buildCode_pools_ok] and
    [table_pools_ok] below): a map has no key twice, the blob entered as
    number [i] is named [BLOB_PREFIX + i], and a Code object is entered
    under its own name. *)
Definition blobs_ok (m : list (Buffer * string)) : Prop :=
  NoDup (map_keys m) /\
  forall i b nm, m !! i = Some (b, nm) -> nm = BLOB_PREFIX +:+ pretty i.

Definition codeMap_ok (m : list (string * Code)) : Prop :=
  NoDup (map_keys m) /\
  forall k code, (k, code) ∈ m -> k = name (ref code).

Definition pools_ok (c : Compilation) : Prop :=
  blobs_ok (blobs c) /\ codeMap_ok (codeMap c).

(** The lines of all blob artifacts, and of all code bodies, in order. *)
Definition blob_artifacts (m : list (Buffer * string)) : list string :=
  concat (map (fun '(blob, nm) => blob_artifact blob nm) m).

Definition code_bodies (codes : list Code) : list string :=
  concat (map (fun code => Code_build code ++ [EmptyString]) codes).

End Compilation.

(** *** The table dispatch node *)

Module TableLookup.

(** The argument of [tailTo]: where to go and whether to consume the byte. *)
Record Target := mkTarget {
  target_noAdvance : bool;
  target_node : Node;
  target_value : option Z;
}.

(** One edge of [frontend.node.TableLookup]. *)
Record Edge := mkEdge {
  keys : list Z;
  node : Node;
  noAdvance : bool;
}.

Record Ref := mkRef {
  edges : list Edge;
  otherwise : Target;
  transform : Transform;
}.

Definition MAX_CHAR : Z := 255.

(** [table[key]]: [None] is JavaScript's [undefined], read at an index the
    array does not have. *)
Definition table_get (tbl : list Z) (key : Z) : option Z :=
  if key <? 0 then None else tbl !! Z.to_nat key.

(** The state of the two loops of [buildTable]: either they ran to the end,
    or [assert.strictEqual(table[key], 0)] threw at [key], where it read
    [actual], with the local table as it was at that moment. *)
Inductive Fill :=
| Filled (tbl : list Z)
| Thrown (tbl : list Z) (key : Z) (actual : option Z).

(** The body of [edge.keys.forEach]. *)
Definition assign (tbl : list Z) (key : Z) (index : nat) : Fill :=
  match table_get tbl key with
  | Some 0 => Filled (<[Z.to_nat key := Z.of_nat index + 1]> tbl)
  | actual => Thrown tbl key actual
  end.

Fixpoint fill_keys (tbl : list Z) (ks : list Z) (index : nat) : Fill :=
  match ks with
  | [] => Filled tbl
  | key :: rest =>
      match assign tbl key index with
      | Filled tbl' => fill_keys tbl' rest index
      | thrown => thrown
      end
  end.

(** The loop over [this.ref.edges.entries()], from entry number [index]. *)
Fixpoint fill_edges (tbl : list Z) (es : list Edge) (index : nat) : Fill :=
  match es with
  | [] => Filled tbl
  | edge :: rest =>
      match fill_keys tbl (keys edge) index with
      | Filled tbl' => fill_edges tbl' rest (S index)
      | thrown => thrown
      end
  end.

Section Build.

Variable TABLE_PREFIX : string.
Variables ARG_BUF ARG_OFF : string.

(** Inherited from the base node and the transforms ([js/node/base],
    [js/transform]): the lines [prologue] pushes, the lines [tailTo] pushes
    for a target, and the expression a transform builds. *)
Variable prologue : Ref -> list string.
Variable tailTo : Target -> list string.
Variable Transform_build : Transform -> string -> string.

Definition buildTable (this : Ref) (ctx : Compilation)
    : Result (string * Compilation) :=
  let tbl := replicate (Z.to_nat (MAX_CHAR + 1)) 0 in
  match fill_edges tbl (edges this) 0 with
  | Filled tbl' => Ok (table TABLE_PREFIX ctx tbl')
  | Thrown _ _ _ => Throw (AssertionError None)
  end.

(** The [case] blocks of the switch, from entry number [index]. *)
Fixpoint build_cases (out : list string) (es : list Edge) (index : nat)
    : list string :=
  match es with
  | [] => out
  | edge :: rest =>
      let out := out ++ ["  case " +:+ pretty (index + 1)%nat +:+ ": {"] in
      let tmp := tailTo (mkTarget (noAdvance edge) (node edge) None) in
      let out := indent out tmp "    " in
      let out := out ++ ["  }"] in
      build_cases out rest (S index)
  end.

(** Everything [doBuild] pushes from the [switch] line on. *)
Definition build_switch (this : Ref) (tbl : string) (out : list string)
    : list string :=
  let current :=
    Transform_build (transform this) (ARG_BUF +:+ "[" +:+ ARG_OFF +:+ "]") in
  let out := out ++ ["switch (" +:+ tbl +:+ "[" +:+ current +:+ "]) {"] in
  let out := build_cases out (edges this) 0 in
  let out := out ++ ["  default: {"] in
  let tmp := tailTo (otherwise this) in
  let out := indent out tmp "    " in
  let out := out ++ ["  }"] in
  out ++ ["}"].

Definition doBuild (this : Ref) (ctx : Compilation) (out : list string)
    : Result (list string * Compilation) :=
  match buildTable this ctx with
  | Throw e => Throw e
  | Ok (tbl, ctx') =>
      let out := out ++ prologue this in
      Ok (build_switch this tbl out, ctx')
  end.

End Build.

(** **** Reading the emitted switch

    A [switch] statement runs the block of the first [case] whose label is
    the scrutinee, and the [default] block when there is none.  In the
    emitted text a block opens with its header line and closes at the next
    line ["  }"]. *)

Fixpoint block_body (lines : list string) : list string :=
  match lines with
  | [] => []
  | line :: rest =>
      if String.eqb line "  }" then [] else line :: block_body rest
  end.

Fixpoint find_block (header : string) (lines : list string)
    : option (list string) :=
  match lines with
  | [] => None
  | line :: rest =>
      if String.eqb line header then Some (block_body rest)
      else find_block header rest
  end.

Definition case_header (v : Z) : string := "  case " +:+ pretty v +:+ ": {".

(** The block that the switch emitted in [lines] runs on table value [v]. *)
Definition switch_route (lines : list string) (v : Z) : list string :=
  match find_block (case_header v) lines with
  | Some body => body
  | None => default [] (find_block "  default: {" lines)
  end.

(** **** Key sets *)

(** The keys of an edge list a set of byte values: no repeats, all within
    [0, MAX_CHAR]. *)
Definition is_byte (k : Z) : Prop := 0 <= k <= MAX_CHAR.

Definition key_set (edge : Edge) : Prop :=
  NoDup (keys edge) /\ Forall is_byte (keys edge).

(** No byte value is a key of two different edges. *)
Definition pairwise_disjoint (es : list Edge) : Prop :=
  forall i j ei ej k,
    es !! i = Some ei -> es !! j = Some ej -> i <> j ->
    k ∈ keys ei -> k ∈ keys ej -> False.

(** The number of the first edge, counting from [index], that has [k] among
    its keys. *)
Fixpoint first_owner (es : list Edge) (index : nat) (k : Z) : option nat :=
  match es with
  | [] => None
  | edge :: rest =>
      if bool_decide (k ∈ keys edge) then Some index
      else first_owner rest (S index) k
  end.

End TableLookup.

(** *** The state map, the tables and the other pools of [Compilation] *)

(** [addState]: the state map is a Map from state name to the lines of the
    state. *)
Definition addState (stateMap : list (string * list string)) (state : string)
    (lines : list string) : Result (list (string * list string)) :=
  if map_has stateMap state then Throw (AssertionError None)
  else Ok (map_set stateMap state lines).

(** The loop of [buildStateEnum], [index] being the next number to give. *)
Fixpoint state_enum (names : list string) (index : nat) (out : list string)
    : list string :=
  match names with
  | [] => out
  | stateName :: rest =>
      state_enum rest (S index)
        (out ++ ["const " +:+ stateName +:+ " = " +:+ pretty index +:+ ";"])
  end.

Definition buildStateEnum (STATE_ERROR : string)
    (stateMap : list (string * list string)) (out : list string)
    : list string :=
  state_enum (map_keys stateMap) 1
    (out ++ ["const " +:+ STATE_ERROR +:+ " = " +:+ pretty 0%nat +:+ ";"]).

Definition buildStates (stateMap : list (string * list string))
    (out : list string) : list string :=
  fold_left
    (fun out '(nm, lines) =>
       (out ++ ["case " +:+ nm +:+ ": {"])
         ++ map (fun line => "  " +:+ line) lines
         ++ ["  unreachable();"; "}"])
    stateMap out.

Definition TABLE_GROUP_SIZE : nat := 16.

(** The loop of [buildTables] over [i] in steps of [TABLE_GROUP_SIZE]; the
    loop ends when [i] reaches the length of the table, [fuel] bounds the
    number of rounds. *)
Fixpoint table_rows (fuel : nat) (value : list Z) (i : nat) : list string :=
  match fuel with
  | O => []
  | S fuel' =>
      if (i <? length value)%nat then
        let line :=
          "  " +:+ join ", " (map pretty
                                  (take TABLE_GROUP_SIZE (drop i value))) in
        let line :=
          if (i + TABLE_GROUP_SIZE <? length value)%nat
          then line +:+ "," else line in
        line :: table_rows fuel' value (i + TABLE_GROUP_SIZE)
      else []
  end.

Definition table_artifact (t : ITable) : list string :=
  ["const " +:+ table_name t +:+ " = ["]
    ++ table_rows (length (table_value t)) (table_value t) 0 ++ ["];"].

Definition buildTables (c : Compilation) (out : list string) : list string :=
  if (length (tables c) =? 0)%nat then out
  else
    fold_left (fun out t => out ++ table_artifact t) (tables c) out
      ++ [EmptyString].

(** State fields. *)
Definition stateField (nm : string) : string := "this." +:+ nm.
Definition indexField : string := stateField "_index".
Definition currentField : string := stateField "_current".
Definition statusField : string := stateField "_status".
Definition errorField : string := stateField "error".
Definition reasonField : string := stateField "reason".
Definition errorOffField : string := stateField "errorOff".
Definition spanOffField (index : nat) : string :=
  stateField ("_spanOff" +:+ pretty index).
Definition spanCbField (index : nat) : string :=
  stateField ("_spanCb" +:+ pretty index).

(** [ICompilationProperty] and [getFieldType]; [inr] is the message of the
    Error that is thrown. *)
Record ICompilationProperty := mkProperty {
  property_name : string;
  property_ty : string;
}.

Fixpoint getFieldType (properties : list ICompilationProperty)
    (field : string) : string + string :=
  match properties with
  | [] => inr ("Field " +:+ double_quote +:+ field +:+ double_quote
                 +:+ " not found")
  | property :: rest =>
      if String.eqb (property_name property) field
      then inl (property_ty property)
      else getFieldType rest field
  end.

(** [frontend.SpanField] as the JavaScript backend sees it: the callbacks
    are wrapped Code objects. *)
Record SpanField := mkSpanField {
  span_index : nat;
  span_callbacks : list positive;
}.

Section Interning.

Variable ref : Code -> FrontendCode.

(** [unwrapCode] and [unwrapTransform]: the object a wrapper contains. *)
Variable unwrapCode : positive -> Code.
Variable unwrapTransform : positive -> Transform.

(** The name of a transform ([wrap.ref.name]), the MatchSequence object that
    [new MatchSequence(wrap)] makes (objects of this class are never
    compared, so the object is given by the transform it is made from), and
    its [getName()]. *)
Variable transform_name : Transform -> string.
Variable new_MatchSequence : Transform -> MatchSequence.
Variable MatchSequence_getName : MatchSequence -> string.

(** The inner loop of [reserveSpans]. *)
Fixpoint reserve_callbacks (c : Compilation) (cbs : list positive)
    : Result Compilation :=
  match cbs with
  | [] => Ok c
  | callback :: rest =>
      match buildCode ref c (unwrapCode callback) with
      | Ok (_, c') => reserve_callbacks c' rest
      | Throw e => Throw e
      end
  end.

Fixpoint reserveSpans (c : Compilation) (spans : list SpanField)
    : Result Compilation :=
  match spans with
  | [] => Ok c
  | span :: rest =>
      match reserve_callbacks c (span_callbacks span) with
      | Ok c' => reserveSpans c' rest
      | Throw e => Throw e
      end
  end.

Definition getMatchSequence (c : Compilation) (transform : positive)
    (select : Buffer) : string * Compilation :=
  let wrap := unwrapTransform transform in
  if map_has (matchSequence c) (transform_name wrap) then
    let res := default (new_MatchSequence wrap)
                       (map_get (matchSequence c) (transform_name wrap)) in
    ("this." +:+ MatchSequence_getName res, c)
  else
    let res := new_MatchSequence wrap in
    ("this." +:+ MatchSequence_getName res,
     mkCompilation (blobs c) (tables c) (codeMap c)
                   (map_set (matchSequence c) (transform_name wrap) res)).

End Interning.

(** Successive [addState] calls, as the nodes make them while they are
    built. *)
Fixpoint add_states (stateMap : list (string * list string))
    (entries : list (string * list string))
    : Result (list (string * list string)) :=
  match entries with
  | [] => Ok stateMap
  | (state, lines) :: rest =>
      match addState stateMap state lines with
      | Ok stateMap' => add_states stateMap' rest
      | Throw e => Throw e
      end
  end.

(** The block that the emitted state switch runs for state [nm]: the lines
    after its [case] header, up to the closing brace. *)
Fixpoint state_body (lines : list string) : list string :=
  match lines with
  | [] => []
  | line :: rest =>
      if String.eqb line "}" then [] else line :: state_body rest
  end.

Fixpoint state_block (nm : string) (lines : list string)
    : option (list string) :=
  match lines with
  | [] => None
  | line :: rest =>
      if String.eqb line ("case " +:+ nm +:+ ": {")
      then Some (state_body rest)
      else state_block nm rest
  end.

(** The tables of a compilation that started empty: table number [i] is
    named [TABLE_PREFIX + i]. *)
Definition tables_ok (TABLE_PREFIX : string) (ts : list ITable) : Prop :=
  forall i t, ts !! i = Some t -> table_name t = TABLE_PREFIX +:+ pretty i.

(** The calls that change the pools, and a compilation run as a sequence of
    them; a [buildCode] that throws leaves the pools as they are. *)
Inductive Op :=
| OpBlob (value : Buffer)
| OpTable (value : list Z)
| OpBuildCode (code : Code)
| OpGetMatchSequence (transform : positive) (select : Buffer).

Section Ops.

Variables BLOB_PREFIX TABLE_PREFIX : string.
Variable ref : Code -> FrontendCode.
Variable unwrapTransform : positive -> Transform.
Variable transform_name : Transform -> string.
Variable new_MatchSequence : Transform -> MatchSequence.
Variable MatchSequence_getName : MatchSequence -> string.

Definition apply_op (c : Compilation) (op : Op) : Compilation :=
  match op with
  | OpBlob value => (blob BLOB_PREFIX c value).2
  | OpTable value => (table TABLE_PREFIX c value).2
  | OpBuildCode code =>
      match buildCode ref c code with
      | Ok (_, c') => c'
      | Throw _ => c
      end
  | OpGetMatchSequence transform select =>
      (getMatchSequence unwrapTransform transform_name new_MatchSequence
                        MatchSequence_getName c transform select).2
  end.

Definition apply_ops (c : Compilation) (ops : list Op) : Compilation :=
  fold_left apply_op ops c.

End Ops.

(** *** Reading emitted literals back

    The hexadecimal literals [0x...] of a line of a blob declaration and
    the decimal literals of a line of a table declaration, in order. *)

Definition hex_digit (c : ascii) : option N :=
  let n := N_of_ascii c in
  if ((48 <=? n) && (n <=? 57))%N then Some (n - 48)%N
  else if ((97 <=? n) && (n <=? 102))%N then Some (n - 87)%N
  else None.

Inductive HexScan :=
| HexIdle
| HexZero
| HexDigits (acc : N).

Definition hex_step (st : HexScan) (c : ascii) : list N * HexScan :=
  match st with
  | HexDigits acc =>
      match hex_digit c with
      | Some d => ([], HexDigits (acc * 16 + d)%N)
      | None => ([acc], HexIdle)
      end
  | HexZero =>
      if Ascii.eqb c "x" then ([], HexDigits 0)
      else if Ascii.eqb c "0" then ([], HexZero)
      else ([], HexIdle)
  | HexIdle => if Ascii.eqb c "0" then ([], HexZero) else ([], HexIdle)
  end.

Fixpoint hex_scan (st : HexScan) (s : string) : list N * HexScan :=
  match s with
  | EmptyString => ([], st)
  | String c rest =>
      let '(o1, st1) := hex_step st c in
      let '(o2, st2) := hex_scan st1 rest in
      (o1 ++ o2, st2)
  end.

Definition hex_flush (st : HexScan) : list N :=
  match st with HexDigits acc => [acc] | _ => [] end.

Definition hex_literals (line : string) : list N :=
  let '(o, st) := hex_scan HexIdle line in o ++ hex_flush st.

Definition dec_digit (c : ascii) : option N :=
  let n := N_of_ascii c in
  if ((48 <=? n) && (n <=? 57))%N then Some (n - 48)%N else None.

Inductive DecScan :=
| DecIdle
| DecDigits (acc : N).

Definition dec_step (st : DecScan) (c : ascii) : list N * DecScan :=
  match dec_digit c, st with
  | Some d, DecIdle => ([], DecDigits d)
  | Some d, DecDigits acc => ([], DecDigits (acc * 10 + d)%N)
  | None, DecIdle => ([], DecIdle)
  | None, DecDigits acc => ([acc], DecIdle)
  end.

Fixpoint dec_scan (st : DecScan) (s : string) : list N * DecScan :=
  match s with
  | EmptyString => ([], st)
  | String c rest =>
      let '(o1, st1) := dec_step st c in
      let '(o2, st2) := dec_scan st1 rest in
      (o1 ++ o2, st2)
  end.

Definition dec_flush (st : DecScan) : list N :=
  match st with DecDigits acc => [acc] | DecIdle => [] end.

Definition dec_literals (line : string) : list N :=
  let '(o, st) := dec_scan DecIdle line in o ++ dec_flush st.

(** *** The single-byte dispatch node (second part of [js/compilation.ts]) *)

Module Single.
Import TableLookup.

Record Edge := mkEdge {
  key : Z;
  node : Node;
  noAdvance : bool;
  value : option Z;
}.

Record Ref := mkRef {
  edges : list Edge;
  otherwise : Target;
  transform : Transform;
}.

(** The label of a case: the key, after a comment showing its character
    when the key is printable ASCII other than the single quote. *)
Definition case_label (k : Z) : string :=
  let ch := pretty k in
  if negb ((k <? 32) || (k >? 126) || (k =? 39))
  then "/* '" +:+ String (ascii_of_N (Z.to_N k)) EmptyString +:+ "' */ "
         +:+ ch
  else ch.

Section Build.

Variables ARG_BUF ARG_OFF : string.
Variable prologue : Ref -> list string.
Variable tailTo : Target -> list string.
Variable Transform_build : Transform -> string -> string.

(** The body of [this.ref.edges.forEach]. *)
Fixpoint build_cases (out : list string) (es : list Edge) : list string :=
  match es with
  | [] => out
  | edge :: rest =>
      let out := out ++ ["  case " +:+ case_label (key edge) +:+ ": {"] in
      let tmp :=
        tailTo (mkTarget (noAdvance edge) (node edge) (value edge)) in
      let out := indent out tmp "    " in
      let out := out ++ ["  }"] in
      build_cases out rest
  end.

(** Everything [doBuild] pushes from the [switch] line on. *)
Definition build_switch (this : Ref) (out : list string) : list string :=
  let current :=
    Transform_build (transform this) (ARG_BUF +:+ "[" +:+ ARG_OFF +:+ "]") in
  let out := out ++ ["switch (" +:+ current +:+ " | 0) {"] in
  let out := build_cases out (edges this) in
  let out := out ++ ["  default: {"] in
  let tmp := tailTo (otherwise this) in
  let out := indent out tmp "    " in
  let out := out ++ ["  }"] in
  out ++ ["}"].

Definition doBuild (this : Ref) (out : list string) : list string :=
  let out := out ++ prologue this in
  build_switch this out.

End Build.

(** Reading the emitted switch: a case line is the header of value [v] when
    its label, any comment dropped, is the numeral [v]. *)
Fixpoint strip_prefix (p s : string) : option string :=
  match p with
  | EmptyString => Some s
  | String a p' =>
      match s with
      | String b s' => if Ascii.eqb a b then strip_prefix p' s' else None
      | EmptyString => None
      end
  end.

Definition drop_comment (label : string) : string :=
  match strip_prefix "/* '" label with
  | Some (String _ rest) =>
      match strip_prefix "' */ " rest with
      | Some numeral => numeral
      | None => label
      end
  | _ => label
  end.

Definition is_case_of (v : Z) (line : string) : bool :=
  match strip_prefix "  case " line with
  | Some label => String.eqb (drop_comment label) (pretty v +:+ ": {")
  | None => false
  end.

Fixpoint find_case (v : Z) (lines : list string) : option (list string) :=
  match lines with
  | [] => None
  | line :: rest =>
      if is_case_of v line then Some (block_body rest) else find_case v rest
  end.

Definition switch_route (lines : list string) (v : Z) : list string :=
  match find_case v lines with
  | Some body => body
  | None => default [] (find_block "  default: {" lines)
  end.

End Single.

End Js.

(** ** Sample programs and inputs *)

Module Samples.
Import Bitcode Bitcode.ExecuteBuilder.

(** A node that skips every byte up to the end of the chunk and resumes at
    itself (address 2), and a node (address 1) that opens span 0 at the
    current position and goes on to the skipping node. *)
Definition skip_node : NodeFn :=
  fun s pos endpos log => (s, log, 2).

Definition span_start_node : NodeFn :=
  fun s pos endpos log => skip_node (store_span_pos s 0 pos) pos endpos log.

Definition span_nodes (addr : Z) : NodeFn :=
  if addr =? 1 then span_start_node else skip_node.

Definition one_span : list SpanField := [mkSpan 0 ["on_span"]].

Definition accepting : SpanCallback := fun _ _ _ _ _ => 0.
Definition rejecting : SpanCallback := fun _ _ _ _ _ => 5.

(** Fresh records: no error, the span inactive; resuming at node 1 or 2. *)
Definition fresh_at (addr : Z) : State :=
  mkState addr 0 EmptyString 0 [0] [EmptyString].

(** A record with span 0 open at position 100. *)
Definition open_span : State :=
  mkState 2 0 EmptyString 0 [100] [EmptyString].

(** A record that holds error 7. *)
Definition erred : State :=
  mkState 2 7 "stop" 103 [100] [EmptyString].

Definition pause_21 : Pause.Ref := Pause.mkRef 21 "paused" 2.

(** A node that invokes [on_byte] on every byte up to the end of the chunk
    and resumes at itself. *)
Definition byte_events (pos endpos : Z) : list Event :=
  map (fun i => mkEvent "on_byte" (pos + Z.of_nat i) (pos + Z.of_nat i + 1))
      (seq 0 (Z.to_nat (endpos - pos))).

Definition byte_node : NodeFn :=
  fun s pos endpos log => (s, log ++ byte_events pos endpos, 2).

Definition byte_nodes (addr : Z) : NodeFn := byte_node.

(** A byte-stepping automaton.  [step node] is the node at work on the byte
    at [pos]: it either hands back the node for the next byte or returns
    null.  [run] drives it over the chunk and hands back the node it has
    reached when the chunk is used up. *)
Fixpoint run (step : Z -> NodeFn) (fuel : nat) (node : Z) (s : State)
    (pos : Z) (log : list Event) : NodeResult :=
  match fuel with
  | O => (s, log, node)
  | S fuel' =>
      let '(s1, log1, next) := step node s pos (pos + 1) log in
      if next =? null then (s1, log1, null)
      else run step fuel' next s1 (pos + 1) log1
  end.

Definition automaton (step : Z -> NodeFn) (addr : Z) : NodeFn :=
  fun s pos endpos log => run step (Z.to_nat (endpos - pos)) addr s pos log.

(** Node 2 reports every byte through [on_byte], up to position 103, where
    it goes through the Pause node. *)
Definition bytes_then_pause_step (addr : Z) : NodeFn :=
  fun s pos endpos log =>
    if pos =? 103 then Pause.doBuild pause_21 s pos endpos log
    else (s, log ++ [mkEvent "on_byte" pos (pos + 1)], 2).

Definition bytes_then_pause : Z -> NodeFn := automaton bytes_then_pause_step.

(** A step function fit for [run]: it does not read the resume pointer,
    leaves it alone when it hands back a node, and returns null exactly
    when it has persisted an error code. *)
Definition step_ok (step : Z -> NodeFn) : Prop :=
  forall node s pos log,
    let '(s1, log1, next) := step node s pos (pos + 1) log in
    (forall c,
       step node (set_current s c) pos (pos + 1) log
       = if next =? null then (s1, log1, null)
         else (set_current s1 c, log1, next)) /\
    (error s = 0 -> if next =? null then error s1 <> 0 else error s1 = 0).

(** Two spans, both open, and a callback that rejects for [on_a] only. *)
Definition two_spans : list SpanField :=
  [mkSpan 0 ["on_a"]; mkSpan 1 ["on_b"]].

Definition both_open : State :=
  mkState 2 0 EmptyString 0 [100; 101] [EmptyString; EmptyString].

Definition rejecting_a : SpanCallback :=
  fun cb _ _ _ _ => if String.eqb cb "on_a" then 5 else 0.

(** Objects of the JavaScript backend: Code objects 1 and 2 are both named
    [on_url], with different signatures; Buffers 1 and 2 both hold the
    bytes of [GET]. *)
Definition code_store (code : Js.Code) : Js.FrontendCode :=
  match code with
  | 1%positive => Js.mkFrontendCode "on_url" Js.SigMatch
  | 2%positive => Js.mkFrontendCode "on_url" Js.SigSpan
  | _ => Js.mkFrontendCode "on_body" Js.SigSpan
  end.

Definition buffer_store (b : Js.Buffer) : list byte := [x47; x45; x54].

Definition code_lines (code : Js.Code) : list string :=
  ["_" +:+ Js.name (code_store code) +:+ "() {"; "}"].

Definition no_lines (m : Js.MatchSequence) : list string := [].

(** A table dispatch node with two edges, [a] and [b] to node 10 and [A] to
    node 11, falling back to node 12; and one in which [b] is a key of both
    edges. *)
Definition lower_upper : Js.TableLookup.Ref :=
  Js.TableLookup.mkRef
    [Js.TableLookup.mkEdge [97; 98] 10%positive false;
     Js.TableLookup.mkEdge [65] 11%positive false]
    (Js.TableLookup.mkTarget true 12%positive None) 1%positive.

Definition shared_key : Js.TableLookup.Ref :=
  Js.TableLookup.mkRef
    [Js.TableLookup.mkEdge [97; 98] 10%positive false;
     Js.TableLookup.mkEdge [98] 11%positive false]
    (Js.TableLookup.mkTarget true 12%positive None) 1%positive.

Definition jump_lines (t : Js.TableLookup.Target) : list string :=
  (if Js.TableLookup.target_noAdvance t then [] else ["off++;"])
    ++ ["current = S_" +:+ pretty (Js.TableLookup.target_node t) +:+ ";";
        "continue;"].

Definition no_prologue (this : Js.TableLookup.Ref) : list string := [].

Definition identity_transform (t : Js.Transform) (value : string) : string :=
  value.

(** Wrappers that are the objects they contain; transforms 1 and 2 are two
    objects of the same name; the matcher of a transform carries its
    name. *)
Definition unwrap (w : positive) : positive := w.

Definition transform_names (t : Js.Transform) : string :=
  match t with
  | 1%positive | 2%positive => "to_lower"
  | _ => "id"
  end.

Definition matcher_of (t : Js.Transform) : Js.MatchSequence := t.

Definition matcher_name (m : Js.MatchSequence) : string :=
  "_match_sequence_" +:+ transform_names m.

(** Node 1 pauses with code 21 and resumes at the skipping node. *)
Definition pause_nodes (addr : Z) : NodeFn :=
  if addr =? 1 then Pause.doBuild pause_21 else skip_node.

(** A single-byte dispatch node: [a] (twice) and a line feed. *)
Definition single_node : Js.Single.Ref :=
  Js.Single.mkRef
    [Js.Single.mkEdge 97 10%positive false None;
     Js.Single.mkEdge 10 11%positive false None;
     Js.Single.mkEdge 97 13%positive true None]
    (Js.TableLookup.mkTarget true 12%positive None) 1%positive.

End Samples.

(** * Properties *)

Module ExecuteProps.
Import Bitcode Bitcode.ExecuteBuilder.

Lemma load_store_same s i v :
  load_span_pos s i <> null -> load_span_pos (store_span_pos s i v) i = v.
Proof.
  unfold load_span_pos, store_span_pos; simpl. intros H.
  destruct (span_pos s !! i) as [x|] eqn:E; [|done].
  apply lookup_lt_Some in E.
  by rewrite list_lookup_insert_eq.
Qed.

Lemma lookup_store_other s i j v :
  i <> j -> span_pos (store_span_pos s i v) !! j = span_pos s !! j.
Proof. intros H. simpl. by apply list_lookup_insert_ne. Qed.

Lemma load_store_other s i j v :
  i <> j -> load_span_pos (store_span_pos s i v) j = load_span_pos s j.
Proof. intros H. unfold load_span_pos. by rewrite lookup_store_other. Qed.

Lemma restartSpans_inactive spans s pos i :
  load_span_pos s i = null ->
  span_pos (restartSpans spans s pos) !! i = span_pos s !! i.
Proof.
  revert s. induction spans as [|span rest IH]; intros s Hi; simpl; [done|].
  destruct (load_span_pos s (index span) =? null) eqn:E; [by apply IH|].
  apply Z.eqb_neq in E.
  assert (index span <> i) by (intros Heq; rewrite Heq in E; contradiction).
  rewrite IH; [by apply lookup_store_other|].
  by rewrite load_store_other.
Qed.

Lemma restartSpans_keeps_pos spans s pos i :
  load_span_pos s i = pos -> load_span_pos (restartSpans spans s pos) i = pos.
Proof.
  revert s. induction spans as [|span rest IH]; intros s Hi; simpl; [done|].
  destruct (load_span_pos s (index span) =? null) eqn:E; [by apply IH|].
  apply Z.eqb_neq in E. apply IH.
  destruct (decide (index span = i)) as [<-|Hne].
  - by apply load_store_same.
  - by rewrite load_store_other.
Qed.

Lemma restartSpans_active spans s pos span :
  In span spans -> load_span_pos s (index span) <> null ->
  load_span_pos (restartSpans spans s pos) (index span) = pos.
Proof.
  revert s. induction spans as [|h rest IH]; intros s Hin Hact; [done|].
  simpl. destruct (load_span_pos s (index h) =? null) eqn:E.
  - apply Z.eqb_eq in E. destruct Hin as [Heq|Hin]; [subst h; contradiction|].
    by apply IH.
  - apply Z.eqb_neq in E.
    destruct (decide (index h = index span)) as [Heq|Hne].
    + apply restartSpans_keeps_pos. rewrite <- Heq. by apply load_store_same.
    + destruct Hin as [Heq|Hin]; [subst h; done|].
      apply IH; [done|]. by rewrite load_store_other.
Qed.

Lemma restartSpans_frame spans s pos :
  let s' := restartSpans spans s pos in
  current s' = current s /\ error s' = error s /\ reason s' = reason s /\
  error_pos s' = error_pos s /\ span_cb s' = span_cb s /\
  length (span_pos s') = length (span_pos s).
Proof.
  revert s. induction spans as [|h rest IH]; intros s; simpl; [done|].
  destruct (load_span_pos s (index h) =? null); [apply IH|].
  destruct (IH (store_span_pos s (index h) pos)) as (?&?&?&?&?&Hl).
  simpl in *. rewrite length_insert in Hl. done.
Qed.

Lemma restartSpans_all_inactive spans s pos :
  Forall (fun span => is_active s span = false) spans ->
  restartSpans spans s pos = s.
Proof.
  induction 1 as [|span rest Hspan _ IH]; simpl; [done|].
  unfold is_active in Hspan. apply negb_false_iff in Hspan.
  by rewrite Hspan.
Qed.

Section Calls.

Variable callback : SpanCallback.
Variable nodes : Z -> NodeFn.

Lemma execute_erred spans s pos endpos log :
  error s <> 0 ->
  execute callback nodes spans s pos endpos log = (s, log, error s).
Proof.
  intros H. unfold execute, checkLingeringError.
  apply Z.eqb_neq in H. by rewrite H.
Qed.

Lemma execute_finish spans s pos endpos log :
  error s = 0 ->
  execute callback nodes spans s pos endpos log
  = finish callback spans endpos
      (nodes (current (restartSpans spans s pos)) (restartSpans spans s pos)
             pos endpos log).
Proof.
  intros H. unfold execute, checkLingeringError, finish. rewrite H. simpl.
  by destruct (nodes _ _ _ _ _) as [[s1 log1] call].
Qed.

(** C3: the span restart at the start of a call.  A call on a record
    without a lingering error hands to dispatch the record after the span
    restart; in it, for every span of the parser, an active start slot holds
    the call's starting position and an inactive one is as it was; nothing
    else in the record has changed. *)
Theorem restartSpans_rebases_active spans s pos endpos log span :
  In span spans ->
  let s' := restartSpans spans s pos in
  (error s = 0 ->
     execute callback nodes spans s pos endpos log
     = finish callback spans endpos (nodes (current s') s' pos endpos log)) /\
  (load_span_pos s (index span) <> null ->
     load_span_pos s' (index span) = pos) /\
  (load_span_pos s (index span) = null ->
     span_pos s' !! index span = span_pos s !! index span) /\
  current s' = current s /\ error s' = error s /\ reason s' = reason s /\
  error_pos s' = error_pos s /\ span_cb s' = span_cb s.
Proof.
  intros Hin s'. split; [apply execute_finish|]. split; [|split].
  - by apply restartSpans_active.
  - apply restartSpans_inactive.
  - destruct (restartSpans_frame spans s pos) as (?&?&?&?&?&_). done.
Qed.

(** C2: a record that holds an error.  Every call on it returns the
    persisted code at once: the record and the invocation log come back as
    they were, and so it goes for any number of further calls. *)
Theorem lingering_error_is_sticky spans s log :
  error s <> 0 ->
  (forall pos endpos,
     execute callback nodes spans s pos endpos log = (s, log, error s)) /\
  (forall chunks,
     feed callback nodes spans chunks s log
     = (s, log, replicate (length chunks) (error s))).
Proof.
  intros H. split.
  - intros pos endpos. by apply execute_erred.
  - induction chunks as [|[pos endpos] rest IH]; simpl; [done|].
    rewrite execute_erred by done. by rewrite IH.
Qed.

(** What the finalize loop does, read off its outcome. *)
Lemma executeSpans_outcome spans s endpos log :
  match executeSpans callback spans s endpos log with
  | (s', log', None) =>
      s' = s /\
      log' = log ++ map (finalize_event s endpos)
                        (List.filter (is_active s) spans)
  | (s', log', Some code) =>
      code <> 0 /\ s' = buildError s code endpos /\
      exists pre span post,
        spans = pre ++ span :: post /\ is_active s span = true /\
        log' = (log ++ map (finalize_event s endpos)
                           (List.filter (is_active s) pre))
                 ++ [finalize_event s endpos span] /\
        code = callback (span_callback span s) s
                 (load_span_pos s (index span)) endpos
                 (log ++ map (finalize_event s endpos)
                             (List.filter (is_active s) pre))
  end.
Proof.
  revert log. induction spans as [|span rest IH]; intros log.
  { simpl. by rewrite app_nil_r. }
  assert (Hspan : is_active s span
                  = negb (load_span_pos s (index span) =? null)) by done.
  cbn [executeSpans List.filter].
  destruct (load_span_pos s (index span) =? null) eqn:E;
    simpl in Hspan; rewrite Hspan.
  - specialize (IH log).
    destruct (executeSpans callback rest s endpos log) as [[s' log'] [code|]];
      [|done].
    destruct IH as (Hc & Hs & pre & sp & post & -> & Hact & Hlog & Hcode).
    split; [done|]. split; [done|].
    exists (span :: pre), sp, post. cbn [List.filter]. by rewrite Hspan.
  - cbn zeta.
    destruct (callback (span_callback span s) s (load_span_pos s (index span))
                endpos log =? 0) eqn:Ecall.
    + specialize (IH (log ++ [finalize_event s endpos span])).
      change (mkEvent (span_callback span s) (load_span_pos s (index span))
                endpos) with (finalize_event s endpos span).
      destruct (executeSpans callback rest s endpos _) as [[s' log'] [code|]].
      * destruct IH as (Hc & Hs & pre & sp & post & -> & Hact & Hlog & Hcode).
        split; [done|]. split; [done|].
        exists (span :: pre), sp, post. cbn [List.filter map]. rewrite Hspan.
        cbn [map]. rewrite <- !app_assoc in *. done.
      * destruct IH as [-> ->]. split; [done|].
        cbn [map]. by rewrite <- app_assoc.
    + apply Z.eqb_neq in Ecall. split; [done|]. split; [done|].
      exists [], span, rest. cbn [List.filter map]. rewrite !app_nil_r. done.
Qed.

Lemma executeSpans_frame spans s endpos log :
  let '(s', _, _) := executeSpans callback spans s endpos log in
  span_pos s' = span_pos s /\ span_cb s' = span_cb s /\ current s' = current s.
Proof.
  pose proof (executeSpans_outcome spans s endpos log) as H.
  destruct (executeSpans callback spans s endpos log) as [[s' log'] [code|]].
  - by destruct H as (_ & -> & _).
  - by destruct H as [-> _].
Qed.

(** Splitting a list at each of its elements: either every split has the
    property, or there is a first split that does not. *)
Lemma first_split {A} (P : list A -> A -> Prop)
    (dec : forall pre x, {P pre x} + {~ P pre x}) (l : list A) :
  (forall pre x post, l = pre ++ x :: post -> P pre x) \/
  (exists pre x post,
     l = pre ++ x :: post /\ ~ P pre x /\
     forall p1 y p2, pre = p1 ++ y :: p2 -> P p1 y).
Proof.
  induction l as [|a l' IH] using rev_ind.
  { left. intros pre x post H. by destruct pre. }
  destruct IH as [Hall | (pre & x & post & -> & Hx & Hpre)].
  - destruct (dec l' a) as [Ha | Ha].
    + left. intros pre x post Heq.
      destruct post as [|b post' _] using rev_ind.
      * apply app_inj_tail in Heq as [-> ->]. done.
      * rewrite app_comm_cons, app_assoc in Heq.
        apply app_inj_tail in Heq as [-> _]. by eapply Hall.
    + right. exists l', a, []. split; [done|]. split; [done|].
      intros p1 y p2 ->. by eapply Hall.
  - right. exists pre, x, (post ++ [a]). split; [|done].
    by rewrite <- app_assoc.
Qed.

Lemma is_active_true s span :
  is_active s span = true <-> load_span_pos s (index span) <> null.
Proof.
  unfold is_active. rewrite negb_true_iff. apply Z.eqb_neq.
Qed.

(** The finalize loop falls through when every callback it invokes
    returns 0. *)
Lemma executeSpans_passes spans s endpos log :
  (forall pre span post,
     spans = pre ++ span :: post -> is_active s span = true ->
     callback (span_callback span s) s (load_span_pos s (index span)) endpos
       (log ++ map (finalize_event s endpos) (List.filter (is_active s) pre))
     = 0) ->
  executeSpans callback spans s endpos log
  = (s, log ++ map (finalize_event s endpos) (List.filter (is_active s) spans),
     None).
Proof.
  revert log. induction spans as [|span rest IH]; intros log Hzero.
  { simpl. by rewrite app_nil_r. }
  assert (Hspan : is_active s span
                  = negb (load_span_pos s (index span) =? null)) by done.
  cbn [executeSpans List.filter].
  destruct (load_span_pos s (index span) =? null) eqn:E;
    simpl in Hspan; rewrite Hspan.
  - apply IH. intros pre sp post -> Hact.
    specialize (Hzero (span :: pre) sp post eq_refl Hact).
    cbn [List.filter] in Hzero. by rewrite Hspan in Hzero.
  - cbn zeta.
    pose proof (Hzero [] span rest eq_refl Hspan) as H0.
    cbn [List.filter map] in H0. rewrite app_nil_r in H0. rewrite H0.
    cbn [Z.eqb]. cbn [map].
    change (mkEvent (span_callback span s) (load_span_pos s (index span))
              endpos) with (finalize_event s endpos span).
    rewrite IH.
    + by rewrite <- app_assoc.
    + intros pre sp post -> Hact.
      specialize (Hzero (span :: pre) sp post eq_refl Hact).
      cbn [List.filter] in Hzero. rewrite Hspan in Hzero.
      cbn [map] in Hzero. by rewrite <- app_assoc.
Qed.

(** The finalize loop stops at the first callback that returns nonzero. *)
Lemma executeSpans_stops pre span post s endpos log :
  is_active s span = true ->
  (forall p1 sp p2,
     pre = p1 ++ sp :: p2 -> is_active s sp = true ->
     callback (span_callback sp s) s (load_span_pos s (index sp)) endpos
       (log ++ map (finalize_event s endpos) (List.filter (is_active s) p1))
     = 0) ->
  let reached :=
    log ++ map (finalize_event s endpos) (List.filter (is_active s) pre) in
  let code :=
    callback (span_callback span s) s (load_span_pos s (index span)) endpos
             reached in
  code <> 0 ->
  executeSpans callback (pre ++ span :: post) s endpos log
  = (buildError s code endpos, reached ++ [finalize_event s endpos span],
     Some code).
Proof.
  revert log. induction pre as [|a pre IH]; intros log Hact Hzero.
  - cbn [List.filter map app]. rewrite app_nil_r. intros Hne.
    cbn [executeSpans]. apply is_active_true in Hact.
    apply Z.eqb_neq in Hact, Hne. rewrite Hact. cbn zeta. by rewrite Hne.
  - assert (Ha : is_active s a
                 = negb (load_span_pos s (index a) =? null)) by done.
    cbn [List.filter app executeSpans].
    destruct (load_span_pos s (index a) =? null) eqn:E;
      simpl in Ha; rewrite Ha.
    + apply IH; [done|]. intros p1 sp p2 -> Hsp.
      specialize (Hzero (a :: p1) sp p2 eq_refl Hsp).
      cbn [List.filter] in Hzero. by rewrite Ha in Hzero.
    + cbn zeta.
      pose proof (Hzero [] a pre eq_refl Ha) as H0.
      cbn [List.filter map] in H0. rewrite app_nil_r in H0. rewrite H0.
      cbn [Z.eqb map].
      change (mkEvent (span_callback a s) (load_span_pos s (index a)) endpos)
        with (finalize_event s endpos a).
      replace (log ++ finalize_event s endpos a
                 :: map (finalize_event s endpos)
                      (List.filter (is_active s) pre))
        with ((log ++ [finalize_event s endpos a])
                ++ map (finalize_event s endpos)
                     (List.filter (is_active s) pre))
        by (by rewrite <- app_assoc).
      apply IH; [done|]. intros p1 sp p2 -> Hsp.
      specialize (Hzero (a :: p1) sp p2 eq_refl Hsp).
      cbn [List.filter] in Hzero. rewrite Ha in Hzero.
      cbn [map] in Hzero. by rewrite <- app_assoc.
Qed.

(** Either every finalize callback returns 0 when its turn comes, or there
    is a first one that does not. *)
Lemma finalize_cases spans s endpos log :
  let returned pre span :=
    callback (span_callback span s) s (load_span_pos s (index span)) endpos
      (log ++ map (finalize_event s endpos) (List.filter (is_active s) pre)) in
  (forall pre span post,
     spans = pre ++ span :: post -> is_active s span = true ->
     returned pre span = 0) \/
  (exists pre span post,
     spans = pre ++ span :: post /\ is_active s span = true /\
     (forall p1 sp p2,
        pre = p1 ++ sp :: p2 -> is_active s sp = true -> returned p1 sp = 0) /\
     returned pre span <> 0).
Proof.
  intros returned.
  destruct (first_split
              (fun pre span => is_active s span = true -> returned pre span = 0)
              (fun pre span => decide _) spans)
    as [Hall | (pre & span & post & Hsp & Hnot & Hpre)].
  - by left.
  - right. exists pre, span, post. split; [done|].
    destruct (is_active s span) eqn:Hact.
    + split; [done|]. split; [done|]. intros H0. apply Hnot. done.
    + exfalso. apply Hnot. done.
Qed.

(** C4, as the code has it: the finalize step visits the spans in order and,
    for each span whose start slot is active, invokes the span's callback
    with the span's start and [endpos], as long as the callbacks return 0.
    When all of them do, every active span has been visited and the record
    is as it was.  Otherwise the step ends with the first callback that
    returns nonzero: the spans before it have been visited and have
    returned 0, no span after it is visited, and the code is stored in the
    error field with [endpos] as the error offset.  No start slot is
    written: an active span is still active, at the same start, when the
    step is over, and the span restart of a later call rebases it. *)
Theorem executeSpans_invokes_active_keeps_slots spans s endpos log :
  let reached pre :=
    log ++ map (finalize_event s endpos) (List.filter (is_active s) pre) in
  let returned pre span :=
    callback (span_callback span s) s (load_span_pos s (index span)) endpos
             (reached pre) in
  let '(s', log', r) := executeSpans callback spans s endpos log in
  span_pos s' = span_pos s /\
  (forall span pos',
     In span spans -> is_active s span = true ->
     load_span_pos s' (index span) = load_span_pos s (index span) /\
     is_active s' span = true /\
     load_span_pos (restartSpans spans s' pos') (index span) = pos') /\
  match r with
  | None =>
      s' = s /\ log' = reached spans /\
      (forall pre span post,
         spans = pre ++ span :: post -> is_active s span = true ->
         returned pre span = 0)
  | Some code =>
      code <> 0 /\
      s' = mkState (current s) code (reason s) endpos (span_pos s) (span_cb s)
      /\
      exists pre span post,
        spans = pre ++ span :: post /\ is_active s span = true /\
        (forall p1 sp p2,
           pre = p1 ++ sp :: p2 -> is_active s sp = true ->
           returned p1 sp = 0) /\
        returned pre span = code /\
        log' = reached pre ++ [finalize_event s endpos span]
  end.
Proof.
  intros reached returned.
  destruct (finalize_cases spans s endpos log)
    as [Hzero | (pre & span & post & Hsp & Hact & Hpre & Hne)].
  - rewrite (executeSpans_passes _ _ _ _ Hzero).
    split; [done|]. split; [|done].
    intros sp pos' Hin Ha. split; [done|]. split; [done|].
    apply restartSpans_active; [done|]. by apply is_active_true.
  - rewrite Hsp.
    rewrite (executeSpans_stops pre span post s endpos log Hact Hpre Hne).
    split; [done|]. split.
    + intros sp pos' Hin Ha. split; [done|]. split; [exact Ha|].
      apply restartSpans_active; [done|]. by apply is_active_true in Ha.
    + split; [done|]. split; [done|]. exists pre, span, post. done.
Qed.

(** C5: the result of a call on a record without a lingering error, by what
    the dispatch through [current] handed back.  On the error path (a null
    return, as Pause and Error nodes give after persisting their code) the
    result is the persisted error code and no finalize callback runs: record
    and log are as dispatch left them.  Otherwise the finalize callbacks of
    the active spans decide: when one of them returns a nonzero code, all
    before it having returned 0, that code is the result of the call and is
    persisted in the error field, with [endpos] as the error offset; when
    every one of them returns 0 the result is 0 and the record is as
    dispatch left it, with the resume pointer stored. *)
Theorem execute_result_priority spans s pos endpos log s1 log1 call :
  error s = 0 ->
  nodes (current (restartSpans spans s pos)) (restartSpans spans s pos)
        pos endpos log = (s1, log1, call) ->
  let result := execute callback nodes spans s pos endpos log in
  let st := set_current s1 call in
  let reached pre :=
    log1 ++ map (finalize_event st endpos) (List.filter (is_active st) pre) in
  let returned pre span :=
    callback (span_callback span st) st (load_span_pos st (index span)) endpos
             (reached pre) in
  (call = null -> result = (s1, log1, error s1)) /\
  (call <> null ->
     (forall pre span post code,
        spans = pre ++ span :: post -> is_active st span = true ->
        (forall p1 sp p2,
           pre = p1 ++ sp :: p2 -> is_active st sp = true ->
           returned p1 sp = 0) ->
        returned pre span = code -> code <> 0 ->
        result
        = (mkState call code (reason s1) endpos (span_pos s1) (span_cb s1),
           reached pre ++ [finalize_event st endpos span], code)) /\
     ((forall pre span post,
         spans = pre ++ span :: post -> is_active st span = true ->
         returned pre span = 0) ->
      result = (st, reached spans, 0))).
Proof.
  intros Herr Hcall result st reached returned. subst result.
  rewrite execute_finish by done. rewrite Hcall. unfold finish.
  split.
  - intros ->. done.
  - intros Hne. apply Z.eqb_neq in Hne. rewrite Hne. fold st. split.
    + intros pre span post code -> Hact Hpre Hcode Hcode0.
      subst returned reached. cbv beta in Hcode. subst code.
      by rewrite (executeSpans_stops pre span post st endpos log1 Hact Hpre
                    Hcode0).
    + intros Hzero. by rewrite (executeSpans_passes _ _ _ _ Hzero).
Qed.

Lemma finish_committed spans endpos r :
  finish callback spans endpos (committed r) = finish callback spans endpos r.
Proof.
  destruct r as [[s1 log1] call]. unfold committed.
  destruct (call =? null) eqn:E; [done|].
  unfold finish. rewrite E. by destruct s1.
Qed.

Lemma executeSpans_all_inactive spans s endpos log :
  Forall (fun span => is_active s span = false) spans ->
  executeSpans callback spans s endpos log = (s, log, None).
Proof.
  induction 1 as [|span rest Hspan _ IH]; simpl; [done|].
  unfold is_active in Hspan. apply negb_false_iff in Hspan.
  by rewrite Hspan.
Qed.

Lemma feed_after_error spans chunks s log :
  error s <> 0 ->
  feed callback nodes spans chunks s log
  = (s, log, replicate (length chunks) (error s)).
Proof.
  intros H. induction chunks as [|[pos endpos] rest IH]; simpl; [done|].
  rewrite execute_erred by done. by rewrite IH.
Qed.

Lemma chunks_of_length pos bounds endpos :
  length (chunks_of pos bounds endpos) = S (length bounds).
Proof.
  revert pos. induction bounds as [|mid rest IH]; intros pos; simpl; [done|].
  by rewrite IH.
Qed.

Lemma in_order_le pos bounds endpos :
  in_order pos bounds endpos -> pos <= endpos.
Proof.
  revert pos. induction bounds as [|mid rest IH]; intros pos; simpl; [done|].
  intros [Hle Hrest]. apply IH in Hrest. lia.
Qed.

(** Two calls split where dispatch hands back a resume node and no span is
    open are one call. *)
Lemma execute_resume spans s pos mid endpos log s1 log1 call :
  nodes_resume nodes ->
  error s = 0 -> current s <> null ->
  nodes (current (restartSpans spans s pos)) (restartSpans spans s pos)
        pos mid log = (s1, log1, call) ->
  call <> null ->
  Forall (fun span => is_active s1 span = false) spans ->
  pos <= mid <= endpos ->
  error s1 = 0 /\
  execute callback nodes spans s pos mid log = (set_current s1 call, log1, 0)
  /\ execute callback nodes spans (set_current s1 call) mid endpos log1
     = execute callback nodes spans s pos endpos log.
Proof.
  intros Hres Herr Hcur Hcall Hne Hin Hle.
  destruct (restartSpans_frame spans s pos) as (Hc & He & _).
  pose proof (Hres (restartSpans spans s pos) pos mid endpos log s1 log1 call)
    as H.
  rewrite He, Hc in H. specialize (H Herr Hcur Hle).
  rewrite <- Hc in H. specialize (H Hcall).
  apply Z.eqb_neq in Hne. rewrite Hne in H. destruct H as [Herr1 Hjoin].
  split; [done|]. split.
  - rewrite execute_finish by done. rewrite Hcall. unfold finish.
    rewrite Hne. by rewrite executeSpans_all_inactive.
  - rewrite !execute_finish by done.
    rewrite (restartSpans_all_inactive spans (set_current s1 call)) by done.
    rewrite <- finish_committed. simpl current at 1.
    rewrite Hjoin. apply finish_committed.
Qed.

(** A call whose dispatch stops with an error before the split returns what
    the call over the whole input returns. *)
Lemma execute_stops spans s pos mid endpos log s1 log1 :
  nodes_resume nodes ->
  error s = 0 -> current s <> null ->
  nodes (current (restartSpans spans s pos)) (restartSpans spans s pos)
        pos mid log = (s1, log1, null) ->
  pos <= mid <= endpos ->
  error s1 <> 0 /\
  execute callback nodes spans s pos mid log = (s1, log1, error s1) /\
  execute callback nodes spans s pos endpos log = (s1, log1, error s1).
Proof.
  intros Hres Herr Hcur Hcall Hle.
  destruct (restartSpans_frame spans s pos) as (Hc & He & _).
  pose proof (Hres (restartSpans spans s pos) pos mid endpos log s1 log1 null)
    as H.
  rewrite He, Hc in H. specialize (H Herr Hcur Hle).
  rewrite <- Hc in H. specialize (H Hcall). simpl in H.
  destruct H as [Herr1 Hwhole].
  split; [done|]. rewrite !execute_finish by done.
  by rewrite Hcall, Hwhole.
Qed.

(** C1, as the code has it.  First part: on a record that holds no error
    and whose resume pointer is set, when the compiled nodes keep the
    resumption contract and no span is open at a boundary, feeding the
    chunks one after the other leaves the same record and the same sequence
    of callback invocations as one call over the whole input; the calls
    return 0 up to some chunk and the code of the single call from there
    on.  Second part, for any nodes: a call whose dispatch hands back a
    resume node and which returns 0 has invoked the callback of every span
    that dispatch left active, over the span's start and the end of the
    chunk; it leaves the span's start slot as it is, and the next call
    rebases that slot to the start of its own chunk before it dispatches
    into the resume node. *)
Theorem chunked_feed_is_single_call spans s pos bounds endpos log :
  (nodes_resume nodes ->
   error s = 0 -> current s <> null ->
   in_order pos bounds endpos ->
   no_span_open_at nodes spans s pos bounds log ->
   let '(s', log', code) := execute callback nodes spans s pos endpos log in
   exists k,
     (k <= length bounds)%nat /\
     feed callback nodes spans (chunks_of pos bounds endpos) s log
     = (s', log', replicate k 0 ++ replicate (S (length bounds) - k) code)) /\
  (forall mid s1 log1 call s2 log2,
     error s = 0 ->
     nodes (current (restartSpans spans s pos)) (restartSpans spans s pos)
           pos mid log = (s1, log1, call) ->
     call <> null ->
     execute callback nodes spans s pos mid log = (s2, log2, 0) ->
     s2 = set_current s1 call /\
     log2 = log1 ++ map (finalize_event s2 mid)
                        (List.filter (is_active s2) spans) /\
     (forall span,
        In span spans -> is_active s1 span = true ->
        In (mkEvent (span_callback span s1) (load_span_pos s1 (index span))
                    mid) log2 /\
        load_span_pos s2 (index span) = load_span_pos s1 (index span) /\
        load_span_pos (restartSpans spans s2 mid) (index span) = mid) /\
     (error s1 = 0 ->
      forall endpos',
        execute callback nodes spans s2 mid endpos' log2
        = finish callback spans endpos'
            (nodes call (restartSpans spans s2 mid) mid endpos' log2))).
Proof.
  split.
  - intros Hres. revert s pos log.
    induction bounds as [|mid rest IH]; intros s pos log Herr Hcur Hord Hopen.
    { simpl. destruct (execute _ _ _ _ _ _ _) as [[s' log'] code].
      exists 0%nat. done. }
    destruct Hord as [Hle Hord]. pose proof (in_order_le _ _ _ Hord) as Hle'.
    cbn [no_span_open_at] in Hopen.
    destruct (nodes _ _ _ _ _) as [[s1 log1] call] eqn:Hcall.
    destruct (decide (call = null)) as [->|Hne].
    + destruct (execute_stops spans s pos mid endpos log s1 log1)
        as (Herr1 & Hfirst & Hwhole); try done.
      rewrite Hwhole. exists 0%nat. split; [lia|].
      cbn [chunks_of feed]. rewrite Hfirst.
      rewrite feed_after_error by done. by rewrite chunks_of_length.
    + destruct (Hopen Hne) as [Hin Hrest].
      destruct (execute_resume spans s pos mid endpos log s1 log1 call)
        as (Herr1 & Hfirst & Hjoin); try done.
      specialize (IH (set_current s1 call) mid log1 Herr1 Hne Hord Hrest).
      rewrite Hjoin in IH.
      destruct (execute callback nodes spans s pos endpos log)
        as [[s' log'] code].
      destruct IH as (k & Hk & IH). exists (S k). split; [simpl; lia|].
      cbn [chunks_of feed]. rewrite Hfirst, IH. done.
  - intros mid s1 log1 call s2 log2 Herr Hcall Hne Hexec.
    rewrite execute_finish in Hexec by done. rewrite Hcall in Hexec.
    unfold finish in Hexec. apply Z.eqb_neq in Hne. rewrite Hne in Hexec.
    pose proof (executeSpans_outcome spans (set_current s1 call) mid log1)
      as Hout.
    destruct (executeSpans callback spans (set_current s1 call) mid log1)
      as [[s' log'] [code|]].
    { destruct Hout as [Hcode _]. by injection Hexec as _ _ ->. }
    destruct Hout as [-> ->]. injection Hexec as <- <-.
    split; [done|]. split; [done|]. split.
    + intros span Hin Hact. split; [|split].
      * apply in_or_app. right.
        change (mkEvent (span_callback span s1)
                  (load_span_pos s1 (index span)) mid)
          with (finalize_event (set_current s1 call) mid span).
        apply in_map. apply filter_In. done.
      * done.
      * apply restartSpans_active; [done|]. by apply is_active_true in Hact.
    + intros Herr1 endpos'. rewrite execute_finish by done.
      destruct (restartSpans_frame spans (set_current s1 call) mid)
        as (Hc & _).
      by rewrite Hc.
Qed.

End Calls.

Lemma restartSpans_rebases_active_witness :
  In (mkSpan 0 ["on_span"]) Samples.one_span /\
  load_span_pos (restartSpans Samples.one_span Samples.open_span 200) 0 = 200.
Proof.
  split; [by left|].
  destruct (restartSpans_rebases_active Samples.accepting Samples.span_nodes
              Samples.one_span Samples.open_span 200 204 []
              (mkSpan 0 ["on_span"])) as (_ & H & _); [by left|].
  by apply H.
Defined.

Lemma lingering_error_is_sticky_witness :
  error Samples.erred <> 0 /\
  execute Samples.rejecting Samples.span_nodes Samples.one_span
          Samples.erred 200 204 [] = (Samples.erred, [], 7) /\
  feed Samples.rejecting Samples.span_nodes Samples.one_span
       [(200, 204); (204, 210)] Samples.erred []
  = (Samples.erred, [], [7; 7]).
Proof.
  assert (H : error Samples.erred <> 0) by (simpl; lia).
  split; [exact H|].
  destruct (lingering_error_is_sticky Samples.rejecting Samples.span_nodes
              Samples.one_span Samples.erred [] H) as [H1 H2].
  split; [apply H1 | apply (H2 [(200, 204); (204, 210)])].
Defined.

(** C4 as stated fails: after the finalize callback of an open span has
    fired and returned 0, the span's start slot still holds its start. *)
Lemma finalize_leaves_span_active :
  let '(s', log', r) :=
    executeSpans Samples.accepting Samples.one_span Samples.open_span 104 []
  in
  log' = [mkEvent "on_span" 100 104] /\ r = None /\
  load_span_pos s' 0 = 100 /\ load_span_pos s' 0 <> null.
Proof. vm_compute. repeat split; discriminate. Qed.

Lemma executeSpans_invokes_active_keeps_slots_witness :
  In (mkSpan 1 ["on_b"]) Samples.two_spans /\
  is_active Samples.both_open (mkSpan 1 ["on_b"]) = true /\
  let '(s', log', r) :=
    executeSpans Samples.rejecting_a Samples.two_spans Samples.both_open
                 104 [] in
  log' = [mkEvent "on_a" 100 104] /\ r = Some 5 /\
  load_span_pos s' 1 = 101 /\
  load_span_pos (restartSpans Samples.two_spans s' 200) 1 = 200.
Proof.
  assert (Hin : In (mkSpan 1 ["on_b"]) Samples.two_spans)
    by (right; left; reflexivity).
  assert (Hact : is_active Samples.both_open (mkSpan 1 ["on_b"]) = true)
    by reflexivity.
  split; [exact Hin|]. split; [exact Hact|].
  pose proof (executeSpans_invokes_active_keeps_slots Samples.rejecting_a
                Samples.two_spans Samples.both_open 104 []) as H.
  cbv zeta in H.
  destruct (executeSpans Samples.rejecting_a Samples.two_spans
              Samples.both_open 104 []) as [[s' log'] r] eqn:E.
  destruct H as (_ & Hslot & _).
  destruct (Hslot (mkSpan 1 ["on_b"]) 200 Hin Hact) as (H1 & _ & H2).
  vm_compute in E. injection E as <- <- <-.
  split; [reflexivity|]. split; [reflexivity|]. split; [exact H1 | exact H2].
Defined.

Lemma execute_result_priority_witness :
  error Samples.open_span = 0 /\
  execute Samples.rejecting Samples.span_nodes Samples.one_span
          Samples.open_span 200 204 []
  = (mkState 2 5 EmptyString 204 [200] [EmptyString],
     [mkEvent "on_span" 200 204], 5).
Proof.
  split; [reflexivity|].
  destruct (execute_result_priority Samples.rejecting Samples.span_nodes
              Samples.one_span Samples.open_span 200 204 []
              (mkState 2 0 EmptyString 0 [200] [EmptyString]) [] 2
              eq_refl eq_refl) as [_ H].
  assert (Hne : 2 <> null) by discriminate.
  destruct (H Hne) as [Hfirst _].
  apply (Hfirst [] (mkSpan 0 ["on_span"]) [] 5).
  - reflexivity.
  - reflexivity.
  - intros p1 sp p2 Heq. by destruct p1.
  - reflexivity.
  - discriminate.
Defined.

(** C1 as stated fails: a span opened in the first chunk and still open at
    its end is finalized there and restarted in the second chunk, so the
    two calls invoke its callback twice, on the two halves, where the single
    call invokes it once on the whole range. *)
Lemma chunked_feed_splits_open_span :
  (feed Samples.accepting Samples.span_nodes Samples.one_span
        [(100, 102); (102, 104)] (Samples.fresh_at 1) []).1.2
  = [mkEvent "on_span" 100 102; mkEvent "on_span" 102 104] /\
  (execute Samples.accepting Samples.span_nodes Samples.one_span
           (Samples.fresh_at 1) 100 104 []).1.2
  = [mkEvent "on_span" 100 104] /\
  (feed Samples.accepting Samples.span_nodes Samples.one_span
        [(100, 102); (102, 104)] (Samples.fresh_at 1) []).1.2
  <> (execute Samples.accepting Samples.span_nodes Samples.one_span
              (Samples.fresh_at 1) 100 104 []).1.2.
Proof. vm_compute. repeat split; discriminate. Qed.

(** *** Nodes that keep the resumption contract *)

Lemma map_seq_shift {A} (F : Z -> A) len a b :
  map (fun i => F (Z.of_nat a + Z.of_nat i)) (seq b len)
  = map (fun i => F (Z.of_nat i)) (seq (a + b) len).
Proof.
  revert b. induction len as [|len IH]; intros b; simpl; [done|].
  rewrite IH. rewrite Nat2Z.inj_add. do 3 f_equal. lia.
Qed.

Lemma byte_events_split pos mid endpos :
  pos <= mid <= endpos ->
  Samples.byte_events pos endpos
  = Samples.byte_events pos mid ++ Samples.byte_events mid endpos.
Proof.
  intros H. unfold Samples.byte_events.
  replace (Z.to_nat (endpos - pos))
    with (Z.to_nat (mid - pos) + Z.to_nat (endpos - mid))%nat by lia.
  rewrite seq_app, map_app. apply f_equal. rewrite Nat.add_0_l.
  rewrite <- (Nat.add_0_r (Z.to_nat (mid - pos))) at 1.
  rewrite <- (map_seq_shift
                (fun z => mkEvent "on_byte" (pos + z) (pos + z + 1))).
  apply map_ext. intros i. f_equal; lia.
Qed.

Lemma byte_nodes_resume : nodes_resume Samples.byte_nodes.
Proof.
  intros s pos mid endpos log s1 log1 call Herr Hcur Hle H.
  unfold Samples.byte_nodes, Samples.byte_node in *.
  injection H as <- <- <-. simpl. split; [done|].
  rewrite (byte_events_split pos mid endpos) by done.
  rewrite app_assoc. by destruct s.
Qed.

(** The nodes of the open-span example keep the contract as well: what
    breaks the equivalence there is the span left open, not the nodes. *)
Lemma span_nodes_resume : nodes_resume Samples.span_nodes.
Proof.
  intros s pos mid endpos log s1 log1 call Herr Hcur Hle H.
  unfold Samples.span_nodes, Samples.span_start_node, Samples.skip_node in *.
  destruct (current s =? 1); injection H as <- <- <-; simpl; by destruct s.
Qed.

(** The driver of a byte-stepping automaton can be split at any byte. *)
Lemma run_split step n m node s pos log :
  node <> null ->
  Samples.run step (n + m) node s pos log
  = let '(s1, log1, call) := Samples.run step n node s pos log in
    if call =? null then (s1, log1, null)
    else Samples.run step m call s1 (pos + Z.of_nat n) log1.
Proof.
  revert node s pos log. induction n as [|n IH]; intros node s pos log Hne.
  - cbn [Nat.add Samples.run]. apply Z.eqb_neq in Hne. rewrite Hne.
    by rewrite Z.add_0_r.
  - cbn [Nat.add Samples.run].
    destruct (step node s pos (pos + 1) log) as [[s1 log1] next].
    destruct (next =? null) eqn:E; [done|].
    apply Z.eqb_neq in E. rewrite IH by done.
    destruct (Samples.run step n next s1 (pos + 1) log1) as [[s2 log2] call].
    destruct (call =? null); [done|]. f_equal. lia.
Qed.

Lemma run_current step n node s c pos log :
  Samples.step_ok step -> node <> null ->
  Samples.run step n node (set_current s c) pos log
  = let '(s1, log1, call) := Samples.run step n node s pos log in
    if call =? null then (s1, log1, null) else (set_current s1 c, log1, call).
Proof.
  intros Hok. revert node s pos log.
  induction n as [|n IH]; intros node s pos log Hne.
  - cbn [Samples.run]. apply Z.eqb_neq in Hne. by rewrite Hne.
  - cbn [Samples.run]. pose proof (Hok node s pos log) as H.
    destruct (step node s pos (pos + 1) log) as [[s1 log1] next].
    destruct H as [H _]. rewrite (H c).
    destruct (next =? null) eqn:E.
    + by rewrite Z.eqb_refl.
    + rewrite E. apply Z.eqb_neq in E. by apply IH.
Qed.

Lemma run_error step n node s pos log s1 log1 call :
  Samples.step_ok step -> node <> null -> error s = 0 ->
  Samples.run step n node s pos log = (s1, log1, call) ->
  if call =? null then error s1 <> 0 else error s1 = 0.
Proof.
  intros Hok. revert node s pos log.
  induction n as [|n IH]; intros node s pos log Hne Herr.
  - cbn [Samples.run]. intros [= <- <- <-].
    apply Z.eqb_neq in Hne. by rewrite Hne.
  - cbn [Samples.run]. pose proof (Hok node s pos log) as H.
    destruct (step node s pos (pos + 1) log) as [[s2 log2] next].
    destruct H as [_ H]. specialize (H Herr).
    destruct (next =? null) eqn:E.
    + intros [= <- <- <-]. done.
    + apply Z.eqb_neq in E. by apply IH.
Qed.

(** Every byte-stepping automaton whose steps leave the resume pointer to
    [execute] and return null exactly on an error keeps the contract. *)
Lemma automaton_resumes step :
  Samples.step_ok step -> nodes_resume (Samples.automaton step).
Proof.
  intros Hok s pos mid endpos log s1 log1 call Herr Hcur Hle Hrun.
  unfold Samples.automaton in *.
  replace (Z.to_nat (endpos - pos))
    with (Z.to_nat (mid - pos) + Z.to_nat (endpos - mid))%nat by lia.
  rewrite run_split by done. rewrite Hrun.
  pose proof (run_error _ _ _ _ _ _ _ _ _ Hok Hcur Herr Hrun) as He.
  destruct (call =? null) eqn:E.
  - apply Z.eqb_eq in E. subst call. done.
  - split; [done|]. apply Z.eqb_neq in E.
    replace (pos + Z.of_nat (Z.to_nat (mid - pos))) with mid by lia.
    rewrite run_current by done.
    destruct (Samples.run step (Z.to_nat (endpos - mid)) call s1 mid log1)
      as [[s3 log3] call3].
    unfold committed. destruct (call3 =? null) eqn:E3.
    + apply Z.eqb_eq in E3. by subst call3.
    + rewrite E3. by destruct s3.
Qed.

Lemma bytes_then_pause_step_ok : Samples.step_ok Samples.bytes_then_pause_step.
Proof.
  intros node s pos log. unfold Samples.bytes_then_pause_step.
  destruct (pos =? 103).
  - simpl. split; [|discriminate]. intros c. by destruct s.
  - simpl. split; [|done]. intros c. by destruct s.
Qed.

Lemma chunked_feed_is_single_call_witness :
  (exists k,
     feed Samples.accepting Samples.bytes_then_pause Samples.one_span
          [(100, 102); (102, 104); (104, 106)] (Samples.fresh_at 2) []
     = (mkState 2 21 "paused" 103 [0] [EmptyString],
        [mkEvent "on_byte" 100 101; mkEvent "on_byte" 101 102;
         mkEvent "on_byte" 102 103],
        replicate k 0 ++ replicate (3 - k) 21)) /\
  execute Samples.accepting Samples.span_nodes Samples.one_span
          (mkState 2 0 EmptyString 0 [102] [EmptyString]) 102 104
          [mkEvent "on_span" 100 102]
  = finish Samples.accepting Samples.one_span 104
      (Samples.span_nodes 2 (mkState 2 0 EmptyString 0 [102] [EmptyString])
         102 104 [mkEvent "on_span" 100 102]).
Proof.
  split.
  - destruct (chunked_feed_is_single_call Samples.accepting
                Samples.bytes_then_pause Samples.one_span (Samples.fresh_at 2)
                100 [102; 104] 106 []) as [H _].
    destruct H as (k & _ & H).
    + exact (automaton_resumes _ bytes_then_pause_step_ok).
    + reflexivity.
    + discriminate.
    + simpl. lia.
    + simpl. intros _. split; [repeat constructor|]. intros Hne. done.
    + exists k. exact H.
  - destruct (chunked_feed_is_single_call Samples.accepting Samples.span_nodes
                Samples.one_span (Samples.fresh_at 1) 100 [] 104 [])
      as [_ H].
    destruct (H 102 (mkState 1 0 EmptyString 0 [100] [EmptyString]) [] 2
                (mkState 2 0 EmptyString 0 [100] [EmptyString])
                [mkEvent "on_span" 100 102])
      as (_ & _ & _ & Hnext).
    + reflexivity.
    + reflexivity.
    + discriminate.
    + reflexivity.
    + apply (Hnext eq_refl 104).
Defined.

(** C6, as the code has it: the code of a Pause node first persists the
    node's error code, reason and the current position in the record's error
    fields, then stores the resume target in [current], and returns null;
    it invokes no callback and leaves the span slots alone. *)
Theorem pause_persists_code_and_target ref s pos endpos log :
  let '(s', log', call) := Pause.doBuild ref s pos endpos log in
  call = null /\ log' = log /\
  current s' = Pause.otherwise ref /\
  error s' = Pause.code ref /\ reason s' = Pause.reason_text ref /\
  error_pos s' = pos /\
  span_pos s' = span_pos s /\ span_cb s' = span_cb s.
Proof. simpl. done. Qed.

(** A call that dispatches into a Pause node returns the node's code, with
    no finalize step. *)
Lemma execute_at_pause callback nodes spans s pos endpos log ref :
  error s = 0 ->
  nodes (current (restartSpans spans s pos)) = Pause.doBuild ref ->
  execute callback nodes spans s pos endpos log
  = (set_current (Pause.storeError ref (restartSpans spans s pos) pos)
                 (Pause.otherwise ref),
     log, Pause.code ref).
Proof.
  intros Herr Hnode. rewrite execute_finish by done. by rewrite Hnode.
Qed.

(** C6 as stated fails: the record's error field is written. *)
Lemma pause_sets_error_fields :
  let '(s', _, _) :=
    Pause.doBuild Samples.pause_21 (Samples.fresh_at 1) 100 104 [] in
  error (Samples.fresh_at 1) = 0 /\ error s' = 21 /\
  error s' <> error (Samples.fresh_at 1) /\
  reason s' <> reason (Samples.fresh_at 1) /\
  error_pos s' <> error_pos (Samples.fresh_at 1).
Proof. vm_compute. repeat split; discriminate. Qed.

End ExecuteProps.

Module CompilationProps.
Import Js.

Section JsMapFacts.
Context {K V : Type} `{EqDecision K}.
Implicit Types (m : list (K * V)) (k : K) (v : V).

Lemma map_get_None m k : map_get m k = None <-> k ∉ map_keys m.
Proof.
  induction m as [|[k' v'] m IH]; simpl.
  - split; [intros _; apply not_elem_of_nil | done].
  - rewrite not_elem_of_cons. destruct (decide (k' = k)) as [->|Hne].
    + split; [done | intros [? _]; done].
    + rewrite IH. split; [|by intros [_ ?]].
      intros ?; split; [congruence | done].
Qed.

Lemma map_get_Some m k v : map_get m k = Some v -> (k, v) ∈ m.
Proof.
  induction m as [|[k' v'] m IH]; simpl; [done|].
  destruct (decide (k' = k)) as [->|Hne].
  - intros [= ->]. apply list_elem_of_here.
  - intros H. apply list_elem_of_further. by apply IH.
Qed.

Lemma map_get_elem m k v :
  NoDup (map_keys m) -> (k, v) ∈ m -> map_get m k = Some v.
Proof.
  induction m as [|[k' v'] m IH]; simpl; intros Hnd Hin.
  - by apply elem_of_nil in Hin.
  - apply NoDup_cons in Hnd as [Hk' Hnd].
    apply elem_of_cons in Hin as [[= -> ->]|Hin].
    + by rewrite decide_True.
    + destruct (decide (k' = k)) as [->|Hne]; [|by apply IH].
      exfalso. apply Hk'. apply (list_elem_of_fmap_2 fst) in Hin. done.
Qed.

Lemma map_set_fresh m k v :
  map_get m k = None -> map_set m k v = m ++ [(k, v)].
Proof.
  induction m as [|[k' v'] m IH]; simpl; [done|].
  destruct (decide (k' = k)); [done|]. intros H. by rewrite IH.
Qed.

Lemma map_get_snoc m k v :
  map_get m k = None -> map_get (m ++ [(k, v)]) k = Some v.
Proof.
  induction m as [|[k' v'] m IH]; simpl.
  - by rewrite decide_True.
  - destruct (decide (k' = k)); [done | apply IH].
Qed.

Lemma map_keys_snoc m k v : map_keys (m ++ [(k, v)]) = map_keys m ++ [k].
Proof. unfold map_keys. by rewrite map_app. Qed.

Lemma NoDup_keys_snoc m k v :
  NoDup (map_keys m) -> map_get m k = None -> NoDup (map_keys (m ++ [(k, v)])).
Proof.
  intros Hnd Hk. rewrite map_keys_snoc. apply NoDup_app.
  split; [done|]. split; [|apply NoDup_singleton].
  intros x Hx ->%list_elem_of_singleton. by apply map_get_None in Hk.
Qed.

End JsMapFacts.

Section Pools.

Variables BLOB_PREFIX TABLE_PREFIX : string.
Variable ref : Code -> FrontendCode.
Variable bytes : Buffer -> list byte.
Variable Code_build : Code -> list string.
Variable MatchSequence_build : MatchSequence -> list string.

Lemma pools_ok_new : pools_ok BLOB_PREFIX ref new_Compilation.
Proof.
  repeat split; simpl; try apply NoDup_nil_2.
  - intros i b nm H. by rewrite lookup_nil in H.
  - intros k code H. by apply elem_of_nil in H.
Qed.

Lemma blobs_ok_snoc m b :
  blobs_ok BLOB_PREFIX m -> map_get m b = None ->
  blobs_ok BLOB_PREFIX (m ++ [(b, BLOB_PREFIX +:+ pretty (length m))]).
Proof.
  intros [Hnd Hnm] Hb. split; [by apply NoDup_keys_snoc|].
  intros i b' nm Hi. apply lookup_snoc_Some in Hi as [[_ Hi]|[-> [= <- <-]]].
  - by eapply Hnm.
  - done.
Qed.

Lemma blob_pools_ok c b :
  pools_ok BLOB_PREFIX ref c ->
  pools_ok BLOB_PREFIX ref (blob BLOB_PREFIX c b).2.
Proof.
  intros [Hb Hc]. unfold blob.
  destruct (map_get (blobs c) b) eqn:E; simpl; [done|].
  split; [|done]. simpl. rewrite map_set_fresh by done.
  by apply blobs_ok_snoc.
Qed.

Lemma table_pools_ok c value :
  pools_ok BLOB_PREFIX ref c ->
  pools_ok BLOB_PREFIX ref (table TABLE_PREFIX c value).2.
Proof. by intros [Hb Hc]. Qed.

Lemma codeMap_ok_snoc m code :
  codeMap_ok ref m -> map_get m (name (ref code)) = None ->
  codeMap_ok ref (m ++ [(name (ref code), code)]).
Proof.
  intros [Hnd Hnm] Hfresh. split; [by apply NoDup_keys_snoc|].
  intros k code' Hin. apply elem_of_app in Hin as [Hin|Hin].
  - by apply Hnm.
  - by apply list_elem_of_singleton in Hin as [= -> ->].
Qed.

(** What a successful [buildCode] leaves behind. *)
Lemma buildCode_Ok c code r c1 :
  codeMap_ok ref (codeMap c) ->
  buildCode ref c code = Ok (r, c1) ->
  r = "this._" +:+ name (ref code) /\
  map_get (codeMap c1) (name (ref code)) = Some code /\
  codeMap_ok ref (codeMap c1) /\ blobs c1 = blobs c.
Proof.
  intros Hok. unfold buildCode, map_has.
  destruct (map_get (codeMap c) (name (ref code))) as [existing|] eqn:E.
  - destruct (decide (Some existing = Some code)) as [[= ->]|]; [|done].
    by intros [= <- <-].
  - intros [= <- <-]. simpl. rewrite map_set_fresh by done.
    split; [done|]. split; [by apply map_get_snoc|].
    split; [by apply codeMap_ok_snoc | done].
Qed.

Lemma buildCode_pools_ok c code r c1 :
  pools_ok BLOB_PREFIX ref c -> buildCode ref c code = Ok (r, c1) ->
  pools_ok BLOB_PREFIX ref c1.
Proof.
  intros [Hb Hc] H. destruct (buildCode_Ok _ _ _ _ Hc H) as (_ & _ & ? & Hbl).
  split; [by rewrite Hbl | done].
Qed.

Lemma fold_code_bodies codes out :
  fold_left (fun out code => out ++ Code_build code ++ [EmptyString]) codes out
  = out ++ code_bodies Code_build codes.
Proof.
  revert out. induction codes as [|code rest IH]; intros out; simpl.
  - by rewrite app_nil_r.
  - rewrite IH. unfold code_bodies. simpl. by rewrite <- !app_assoc.
Qed.

Lemma buildMethods_bodies c out :
  buildMethods Code_build MatchSequence_build c out
  = buildMatchSequence MatchSequence_build c out
      ++ code_bodies Code_build (map_values (codeMap c)).
Proof. unfold buildMethods. apply fold_code_bodies. Qed.

Lemma code_bodies_app l1 l2 :
  code_bodies Code_build (l1 ++ l2)
  = code_bodies Code_build l1 ++ code_bodies Code_build l2.
Proof. unfold code_bodies. by rewrite map_app, concat_app. Qed.

(** In a well-formed code map the entry of a name stands alone: every other
    entry has another name. *)
Lemma codeMap_entry_alone m code :
  codeMap_ok ref m -> map_get m (name (ref code)) = Some code ->
  exists before after,
    map_values m = before ++ code :: after /\
    (forall other, other ∈ before ++ after ->
       name (ref other) <> name (ref code)).
Proof.
  intros [Hnd Hnm] Hget. apply map_get_Some in Hget.
  apply list_elem_of_split in Hget as (m1 & m2 & ->).
  exists (map_values m1), (map_values m2). split.
  { unfold map_values. by rewrite map_app. }
  unfold map_keys in Hnd. rewrite map_app in Hnd. simpl in Hnd.
  apply NoDup_app in Hnd as (_ & Hdisj & Hnd2).
  apply NoDup_cons in Hnd2 as [Hnot2 _].
  intros other Hin Heq. apply elem_of_app in Hin as [Hin|Hin];
    apply list_elem_of_fmap in Hin as ([k v] & -> & Hin); simpl in *.
  - assert (k = name (ref v)) as ->.
    { apply Hnm. apply elem_of_app. by left. }
    apply (Hdisj (name (ref v))).
    + by apply (list_elem_of_fmap_2 fst) in Hin.
    + rewrite Heq. apply list_elem_of_here.
  - assert (k = name (ref v)) as ->.
    { apply Hnm. apply elem_of_app. right. by apply list_elem_of_further. }
    apply Hnot2. rewrite <- Heq. by apply (list_elem_of_fmap_2 fst) in Hin.
Qed.

(** C9: callbacks are interned by name.  A name not yet in the code map is
    registered by [buildCode].  Once a call for a Code object has succeeded,
    a repeated call with the same object returns the same reference string
    and leaves the compilation as it is; the code map holds the object once,
    every other entry has another name, and [buildMethods] builds the object
    once.  A call with a different Code object of the same name (whatever
    its signature) throws an AssertionError. *)
Theorem buildCode_interned_by_name c code out :
  codeMap_ok ref (codeMap c) ->
  (map_get (codeMap c) (name (ref code)) = None ->
     exists c1, buildCode ref c code = Ok ("this._" +:+ name (ref code), c1)) /\
  (forall r c1,
     buildCode ref c code = Ok (r, c1) ->
     r = "this._" +:+ name (ref code) /\
     buildCode ref c1 code = Ok (r, c1) /\
     (exists before after,
        map_values (codeMap c1) = before ++ code :: after /\
        (forall other, other ∈ before ++ after ->
           name (ref other) <> name (ref code)) /\
        (code ∉ before ++ after) /\
        buildMethods Code_build MatchSequence_build c1 out
        = buildMatchSequence MatchSequence_build c1 out
            ++ code_bodies Code_build before
            ++ (Code_build code ++ [EmptyString])
            ++ code_bodies Code_build after) /\
     (forall code',
        code' <> code -> name (ref code') = name (ref code) ->
        exists message,
          buildCode ref c1 code' = Throw (AssertionError (Some message)))).
Proof.
  intros Hok. split.
  { intros Hfresh. unfold buildCode, map_has. rewrite Hfresh. eauto. }
  intros r c1 Hcall.
  destruct (buildCode_Ok _ _ _ _ Hok Hcall) as (-> & Hget & Hok1 & _).
  split; [done|]. split; [|split].
  - unfold buildCode, map_has. rewrite Hget. by rewrite decide_True.
  - destruct (codeMap_entry_alone _ _ Hok1 Hget)
      as (before & after & Hvals & Hother).
    exists before, after. split; [done|]. split; [done|]. split.
    + intros Hin. by apply (Hother code Hin).
    + rewrite buildMethods_bodies, Hvals, code_bodies_app.
      unfold code_bodies at 2. simpl. by rewrite <- !app_assoc.
  - intros code' Hne Hname. unfold buildCode, map_has.
    rewrite Hname, Hget. rewrite decide_False by congruence. eauto.
Qed.

Lemma fold_blob_artifacts m out :
  fold_left (fun out '(blob, nm) => out ++ blob_artifact bytes blob nm) m out
  = out ++ blob_artifacts bytes m.
Proof.
  revert out. induction m as [|[b nm] rest IH]; intros out.
  - simpl. by rewrite app_nil_r.
  - cbn [fold_left]. rewrite IH. unfold blob_artifacts. cbn [map concat].
    by rewrite <- !app_assoc.
Qed.

Lemma buildBlobs_artifacts c out :
  blobs c <> [] ->
  buildBlobs bytes c out
  = out ++ blob_artifacts bytes (blobs c) ++ [EmptyString].
Proof.
  intros Hne. unfold buildBlobs, map_size.
  destruct (blobs c) as [|e rest] eqn:E; [done|].
  simpl length. simpl Nat.eqb. cbv iota.
  rewrite fold_blob_artifacts. by rewrite <- app_assoc.
Qed.

(** What a call of [blob] leaves behind. *)
Lemma blob_registered c b :
  blobs_ok BLOB_PREFIX (blobs c) ->
  let '(nm, c1) := blob BLOB_PREFIX c b in
  blobs_ok BLOB_PREFIX (blobs c1) /\
  map_get (blobs c1) b = Some nm /\
  (forall b' nm', map_get (blobs c) b' = Some nm' ->
                  map_get (blobs c1) b' = Some nm').
Proof.
  intros Hok. unfold blob.
  destruct (map_get (blobs c) b) as [nm|] eqn:E; [done|].
  simpl. rewrite map_set_fresh by done.
  split; [by apply blobs_ok_snoc|]. split; [by apply map_get_snoc|].
  intros b' nm' H. destruct Hok as [Hnd _].
  apply map_get_elem.
  - by apply NoDup_keys_snoc.
  - apply elem_of_app. left. by apply map_get_Some.
Qed.

End Pools.

Lemma buildCode_interned_by_name_witness :
  buildCode Samples.code_store new_Compilation 1%positive
  = Ok ("this._on_url", mkCompilation [] [] [("on_url", 1%positive)] []) /\
  buildCode Samples.code_store
    (mkCompilation [] [] [("on_url", 1%positive)] []) 1%positive
  = Ok ("this._on_url", mkCompilation [] [] [("on_url", 1%positive)] []) /\
  exists message,
    buildCode Samples.code_store
      (mkCompilation [] [] [("on_url", 1%positive)] []) 2%positive
    = Throw (AssertionError (Some message)).
Proof.
  destruct (buildCode_interned_by_name Samples.code_store Samples.code_lines
              Samples.no_lines new_Compilation 1%positive [])
    as [_ H].
  { apply (pools_ok_new EmptyString). }
  specialize (H _ _ eq_refl) as (_ & Hagain & _ & Hother).
  split; [reflexivity|]. split; [exact Hagain|].
  apply Hother; [discriminate | reflexivity].
Defined.

End CompilationProps.

Module TableLookupProps.
Import Js Js.TableLookup.

Lemma table_get_nonneg tbl key v : table_get tbl key = Some v -> 0 <= key.
Proof. unfold table_get. destruct (key <? 0) eqn:E; [done | lia]. Qed.

Lemma table_get_insert_same tbl key v w :
  table_get tbl key = Some w ->
  table_get (<[Z.to_nat key := v]> tbl) key = Some v.
Proof.
  unfold table_get. destruct (key <? 0); [done|]. intros H.
  apply lookup_lt_Some in H. by apply list_lookup_insert_eq.
Qed.

Lemma table_get_insert_other tbl key k v :
  0 <= key -> k <> key ->
  table_get (<[Z.to_nat key := v]> tbl) k = table_get tbl k.
Proof.
  unfold table_get. intros Hkey Hne. destruct (k <? 0) eqn:E; [done|].
  apply list_lookup_insert_ne. lia.
Qed.

Lemma table_get_initial k :
  is_byte k -> table_get (replicate (Z.to_nat (MAX_CHAR + 1)) 0) k = Some 0.
Proof.
  unfold is_byte, table_get, MAX_CHAR. intros Hk.
  destruct (k <? 0) eqn:E; [lia|]. apply lookup_replicate_2. lia.
Qed.

Lemma table_get_is_byte (tbl : list Z) k v :
  length tbl = Z.to_nat (MAX_CHAR + 1) -> table_get tbl k = Some v -> is_byte k.
Proof.
  unfold is_byte, table_get, MAX_CHAR. intros Hlen.
  destruct (k <? 0) eqn:E; [done|]. intros H%lookup_lt_Some. lia.
Qed.

Lemma assign_inv tbl key index :
  (table_get tbl key = Some 0 /\
   assign tbl key index = Filled (<[Z.to_nat key := Z.of_nat index + 1]> tbl))
  \/ (table_get tbl key <> Some 0 /\
      assign tbl key index = Thrown tbl key (table_get tbl key)).
Proof.
  unfold assign.
  destruct (table_get tbl key) as [[|p|p]|]; [left|right..]; done.
Qed.

(** The keys loop ran to its end. *)
Lemma fill_keys_Filled tbl ks index tbl' :
  fill_keys tbl ks index = Filled tbl' ->
  length tbl' = length tbl /\ NoDup ks /\
  (forall k, k ∈ ks -> table_get tbl k = Some 0) /\
  (forall k, table_get tbl' k
             = if bool_decide (k ∈ ks) then Some (Z.of_nat index + 1)
               else table_get tbl k).
Proof.
  revert tbl. induction ks as [|key rest IH]; intros tbl; simpl.
  - intros [= <-]. split; [done|]. split; [apply NoDup_nil_2|].
    split; [by intros k ?%elem_of_nil | done].
  - destruct (assign_inv tbl key index) as [[Hget ->]|[_ ->]]; [|done].
    intros (Hlen & Hnd & Hzero & Hread)%IH.
    pose proof (table_get_nonneg _ _ _ Hget) as Hkey.
    assert (Hfresh : key ∉ rest).
    { intros Hin. apply Hzero in Hin.
      rewrite (table_get_insert_same _ _ _ 0) in Hin by done.
      injection Hin. lia. }
    split; [by rewrite Hlen, length_insert|].
    split; [by apply NoDup_cons|]. split.
    + intros k [->|Hin]%elem_of_cons; [done|].
      rewrite <- (Hzero k Hin). symmetry. apply table_get_insert_other; [done|].
      by intros ->.
    + intros k. rewrite Hread.
      destruct (decide (k ∈ rest)) as [Hin|Hnin].
      * rewrite !bool_decide_eq_true_2; [done| |done].
        by apply list_elem_of_further.
      * rewrite (bool_decide_eq_false_2 (k ∈ rest)) by done.
        destruct (decide (k = key)) as [->|Hne].
        -- rewrite bool_decide_eq_true_2 by apply list_elem_of_here.
           by apply (table_get_insert_same _ _ _ 0).
        -- rewrite bool_decide_eq_false_2.
           ++ by apply table_get_insert_other.
           ++ by intros [?|?]%elem_of_cons.
Qed.

(** The keys loop threw. *)
Lemma fill_keys_Thrown tbl ks index t key actual :
  fill_keys tbl ks index = Thrown t key actual ->
  actual <> Some 0 /\ table_get t key = actual /\ key ∈ ks /\
  length t = length tbl /\
  (forall k, table_get t k = table_get tbl k \/
             (table_get tbl k = Some 0 /\ k ∈ ks /\
              table_get t k = Some (Z.of_nat index + 1))).
Proof.
  revert tbl. induction ks as [|k0 rest IH]; intros tbl; simpl; [done|].
  destruct (assign_inv tbl k0 index) as [[Hget ->]|[Hget ->]].
  - intros (Hact & Hread & Hin & Hlen & Hframe)%IH.
    pose proof (table_get_nonneg _ _ _ Hget) as Hkey.
    split; [done|]. split; [done|].
    split; [by apply list_elem_of_further|].
    split; [by rewrite Hlen, length_insert|].
    intros k. destruct (decide (k = k0)) as [->|Hne].
    + right. split; [done|]. split; [apply list_elem_of_here|].
      destruct (Hframe k0) as [->|[Hzero _]].
      * by apply (table_get_insert_same _ _ _ 0).
      * rewrite (table_get_insert_same _ _ _ 0) in Hzero by done.
        injection Hzero. lia.
    + destruct (Hframe k) as [->|(Hzero & Hk & ->)].
      * left. by apply table_get_insert_other.
      * right. rewrite table_get_insert_other in Hzero by done.
        split; [done|]. split; [by apply list_elem_of_further | done].
  - intros [= <- <- <-]. split; [done|]. split; [done|].
    split; [apply list_elem_of_here|]. split; [done|]. by left.
Qed.

Lemma fill_keys_total tbl ks index :
  NoDup ks -> (forall k, k ∈ ks -> table_get tbl k = Some 0) ->
  exists tbl', fill_keys tbl ks index = Filled tbl'.
Proof.
  revert tbl. induction ks as [|key rest IH]; intros tbl Hnd Hzero; simpl.
  - eauto.
  - apply NoDup_cons in Hnd as [Hfresh Hnd].
    assert (Hget : table_get tbl key = Some 0)
      by apply Hzero, list_elem_of_here.
    destruct (assign_inv tbl key index) as [[_ ->]|[? _]]; [|done].
    apply IH; [done|]. intros k Hin.
    rewrite table_get_insert_other.
    + by apply Hzero, list_elem_of_further.
    + by eapply table_get_nonneg.
    + by intros ->.
Qed.

Lemma pairwise_disjoint_cons e rest :
  pairwise_disjoint (e :: rest) <->
  (forall e' k, e' ∈ rest -> k ∈ keys e -> k ∈ keys e' -> False) /\
  pairwise_disjoint rest.
Proof.
  split.
  - intros H. split.
    + intros e' k [j Hj]%list_elem_of_lookup Hk Hk'.
      by apply (H 0%nat (S j) e e' k).
    + intros i j ei ej k Hi Hj Hne. apply (H (S i) (S j) ei ej k); [done..|lia].
  - intros [Hhead Hrest] i j ei ej k Hi Hj Hne Hki Hkj.
    destruct i as [|i], j as [|j]; simpl in *.
    + done.
    + injection Hi as <-. apply (Hhead ej k); [|done..].
      apply list_elem_of_lookup. eauto.
    + injection Hj as <-. apply (Hhead ei k); [|done..].
      apply list_elem_of_lookup. eauto.
    + apply (Hrest i j ei ej k); [done..|lia|done|done].
Qed.

(** Under disjoint key sets the first edge that lists a byte is the only
    one. *)
Lemma first_owner_disjoint es index i e k :
  pairwise_disjoint es -> es !! i = Some e -> k ∈ keys e ->
  first_owner es index k = Some (index + i)%nat.
Proof.
  revert index i. induction es as [|e0 rest IH]; intros index i Hdis Hi Hk;
    [done|].
  apply pairwise_disjoint_cons in Hdis as [Hhead Hrest]. simpl.
  destruct i as [|i]; simpl in Hi.
  - injection Hi as ->. rewrite bool_decide_eq_true_2 by done.
    f_equal. lia.
  - rewrite bool_decide_eq_false_2.
    + rewrite (IH (S index) i) by done. f_equal. lia.
    + intros Hk0. apply (Hhead e k); [|done..].
      apply list_elem_of_lookup. eauto.
Qed.

Lemma first_owner_None es index k :
  (forall e, e ∈ es -> k ∉ keys e) -> first_owner es index k = None.
Proof.
  revert index. induction es as [|e0 rest IH]; intros index H; simpl; [done|].
  rewrite bool_decide_eq_false_2 by apply H, list_elem_of_here.
  apply IH. intros e He. by apply H, list_elem_of_further.
Qed.

(** The edges loop ran to its end: the key arrays had no repeats, within
    an edge or across edges, and every entry holds the number of its edge,
    or what it held before. *)
Lemma fill_edges_Filled tbl es index tbl' :
  fill_edges tbl es index = Filled tbl' ->
  length tbl' = length tbl /\
  Forall (fun e => NoDup (keys e)) es /\
  pairwise_disjoint es /\
  (forall e k, e ∈ es -> k ∈ keys e -> table_get tbl k = Some 0) /\
  (forall k, table_get tbl' k
             = match first_owner es index k with
               | Some i => Some (Z.of_nat i + 1)
               | None => table_get tbl k
               end).
Proof.
  revert tbl index. induction es as [|e rest IH]; intros tbl index; simpl.
  - intros [= <-]. split; [done|]. split; [done|].
    split; [by intros i j ei ej k ?|]. split; [|done].
    by intros e k ?%elem_of_nil.
  - destruct (fill_keys tbl (keys e) index) as [t1|] eqn:Hkeys; [|done].
    apply fill_keys_Filled in Hkeys as (Hlen1 & Hnd & Hzero1 & Hread1).
    intros (Hlen & Hnds & Hdis & Hzero & Hread)%IH.
    assert (Hhead : forall e' k,
               e' ∈ rest -> k ∈ keys e -> k ∈ keys e' -> False).
    { intros e' k He' Hk Hk'. pose proof (Hzero e' k He' Hk') as Hz.
      rewrite Hread1, bool_decide_eq_true_2 in Hz by done.
      injection Hz. lia. }
    split; [congruence|]. split; [by constructor|].
    split; [by apply pairwise_disjoint_cons|]. split.
    + intros e' k [->|He']%elem_of_cons Hk; [by apply Hzero1|].
      rewrite <- (Hzero e' k He' Hk), Hread1.
      rewrite bool_decide_eq_false_2; [done|]. intros Hk0. by eapply Hhead.
    + intros k. rewrite Hread, Hread1.
      destruct (bool_decide (k ∈ keys e)) eqn:Hk; [|done].
      apply bool_decide_eq_true_1 in Hk.
      rewrite first_owner_None; [done|]. intros e' He' Hk'. by eapply Hhead.
Qed.

(** The edges loop threw: the assertion read something other than 0, and
    every entry of the table at that moment is as it was before the loops,
    or was 0 and holds the number of the first edge that lists it. *)
Lemma fill_edges_Thrown tbl es index t key actual :
  fill_edges tbl es index = Thrown t key actual ->
  actual <> Some 0 /\ table_get t key = actual /\
  length t = length tbl /\
  (forall k, table_get t k = table_get tbl k \/
             (table_get tbl k = Some 0 /\
              exists i, first_owner es index k = Some i /\
                        table_get t k = Some (Z.of_nat i + 1))).
Proof.
  revert tbl index. induction es as [|e rest IH]; intros tbl index; simpl;
    [done|].
  destruct (fill_keys tbl (keys e) index) as [t1|t1 key1 actual1] eqn:Hkeys.
  - apply fill_keys_Filled in Hkeys as (Hlen1 & Hnd & Hzero1 & Hread1).
    intros (Hact & Hget & Hlen & Hframe)%IH.
    split; [done|]. split; [done|]. split; [congruence|].
    intros k. specialize (Hread1 k).
    destruct (bool_decide (k ∈ keys e)) eqn:Hk.
    + apply bool_decide_eq_true_1 in Hk. right.
      split; [by apply Hzero1|]. exists index. split; [done|].
      destruct (Hframe k) as [->|[Hz _]]; [done|].
      rewrite Hread1 in Hz. injection Hz. lia.
    + destruct (Hframe k) as [->|(Hz & i & Hi & ->)].
      * by left.
      * right. rewrite Hread1 in Hz. eauto.
  - intros [= <- <- <-].
    apply fill_keys_Thrown in Hkeys as (Hact & Hget & _ & Hlen & Hframe).
    split; [done|]. split; [done|]. split; [done|].
    intros k. destruct (Hframe k) as [->|(Hz & Hk & ->)]; [by left|].
    right. split; [done|]. exists index.
    by rewrite bool_decide_eq_true_2.
Qed.

Lemma fill_edges_total tbl es index :
  Forall (fun e => NoDup (keys e)) es -> pairwise_disjoint es ->
  (forall e k, e ∈ es -> k ∈ keys e -> table_get tbl k = Some 0) ->
  exists tbl', fill_edges tbl es index = Filled tbl'.
Proof.
  revert tbl index. induction es as [|e rest IH];
    intros tbl index Hnds Hdis Hzero; simpl; [eauto|].
  apply Forall_cons in Hnds as [Hnd Hnds].
  apply pairwise_disjoint_cons in Hdis as [Hhead Hdis].
  destruct (fill_keys_total tbl (keys e) index) as [t1 Hkeys]; [done| |].
  { intros k Hk. apply (Hzero e); [apply list_elem_of_here | done]. }
  rewrite Hkeys.
  apply fill_keys_Filled in Hkeys as (_ & _ & _ & Hread1).
  apply IH; [done..|]. intros e' k He' Hk.
  rewrite Hread1, bool_decide_eq_false_2.
  - apply (Hzero e'); [by apply list_elem_of_further | done].
  - intros Hk0. by eapply Hhead.
Qed.

(** *** The emitted switch *)

Lemma append_length (s1 s2 : string) :
  String.length (s1 +:+ s2) = (String.length s1 + String.length s2)%nat.
Proof. induction s1 as [|a s1 IH]; simpl; [done | by rewrite IH]. Qed.

Lemma append_inj_r (s1 s2 t : string) : s1 +:+ t = s2 +:+ t -> s1 = s2.
Proof.
  intros H. assert (Hlen : String.length s1 = String.length s2).
  { apply (f_equal String.length) in H. rewrite !append_length in H. lia. }
  revert s2 H Hlen. induction s1 as [|a s1 IH]; intros [|b s2] H Hlen;
    simpl in *; try done.
  injection H as -> H. f_equal. apply IH; [done | lia].
Qed.

Lemma pretty_Z_of_nat (n : nat) : pretty (Z.of_nat n) = pretty n.
Proof. by destruct n. Qed.

Lemma case_header_inj v w : case_header v = case_header w -> v = w.
Proof.
  unfold case_header. intros H.
  apply (inj (String.append "  case ")) in H.
  apply append_inj_r in H. by apply (inj pretty) in H.
Qed.

Lemma case_line_header (index : nat) :
  "  case " +:+ pretty (index + 1)%nat +:+ ": {"
  = case_header (Z.of_nat index + 1).
Proof.
  unfold case_header. rewrite <- pretty_Z_of_nat. do 3 f_equal. lia.
Qed.

Lemma padded_not_case_header line v :
  String.eqb ("    " +:+ line) (case_header v) = false.
Proof. reflexivity. Qed.

Lemma padded_not_default line :
  String.eqb ("    " +:+ line) "  default: {" = false.
Proof. reflexivity. Qed.

Lemma padded_not_close line : String.eqb ("    " +:+ line) "  }" = false.
Proof. reflexivity. Qed.

Lemma block_body_padded body rest :
  block_body (map (fun line => "    " +:+ line) body ++ "  }" :: rest)
  = map (fun line => "    " +:+ line) body.
Proof.
  induction body as [|line body IH]; [done|].
  cbn [map app block_body]. rewrite padded_not_close. by rewrite IH.
Qed.

Lemma find_block_padded header body rest :
  (forall line, String.eqb ("    " +:+ line) header = false) ->
  find_block header (map (fun line => "    " +:+ line) body ++ rest)
  = find_block header rest.
Proof.
  intros Hpad. induction body as [|line body IH]; [done|].
  cbn [map app find_block]. by rewrite Hpad.
Qed.

Section Switch.

Variable tailTo : Target -> list string.

Lemma build_cases_app out es index :
  build_cases tailTo out es index = out ++ build_cases tailTo [] es index.
Proof.
  revert out index. induction es as [|e rest IH]; intros out index.
  - simpl. by rewrite app_nil_r.
  - cbn [build_cases]. rewrite IH. symmetry. rewrite IH. unfold indent.
    by rewrite <- !app_assoc.
Qed.

Lemma build_cases_cons e rest index :
  build_cases tailTo [] (e :: rest) index
  = case_header (Z.of_nat index + 1)
      :: map (fun line => "    " +:+ line)
             (tailTo (mkTarget (noAdvance e) (node e) None))
      ++ "  }" :: build_cases tailTo [] rest (S index).
Proof.
  cbn [build_cases]. rewrite build_cases_app. unfold indent.
  rewrite case_line_header. cbn [app]. by rewrite <- !app_assoc.
Qed.

(** The block of case [index + i + 1] is what [tailTo] pushed for edge
    number [i], indented. *)
Lemma find_block_case es index i e rest :
  es !! i = Some e ->
  find_block (case_header (Z.of_nat (index + i) + 1))
             (build_cases tailTo [] es index ++ rest)
  = Some (map (fun line => "    " +:+ line)
              (tailTo (mkTarget (noAdvance e) (node e) None))).
Proof.
  revert index i. induction es as [|e0 es IH]; intros index i Hi; [done|].
  rewrite build_cases_cons. cbn [app find_block].
  destruct i as [|i]; simpl in Hi.
  - injection Hi as ->. rewrite Nat.add_0_r, String.eqb_refl.
    rewrite <- app_assoc. cbn [app]. by rewrite block_body_padded.
  - rewrite (proj2 (String.eqb_neq _ _)).
    2:{ intros Heq. apply case_header_inj in Heq. lia. }
    rewrite <- app_assoc.
    rewrite find_block_padded by (intros; apply padded_not_case_header).
    cbn [app find_block].
    replace (index + S i)%nat with (S index + i)%nat by lia.
    by apply IH.
Qed.

(** A header that is none of the case headers is not found among the case
    blocks. *)
Lemma find_block_past_cases header es index rest :
  (forall line, String.eqb ("    " +:+ line) header = false) ->
  String.eqb "  }" header = false ->
  (forall i, header <> case_header (Z.of_nat (index + i) + 1)) ->
  find_block header (build_cases tailTo [] es index ++ rest)
  = find_block header rest.
Proof.
  intros Hpad Hclose. revert index.
  induction es as [|e0 es IH]; intros index Hne; [done|].
  rewrite build_cases_cons. cbn [app find_block].
  rewrite (proj2 (String.eqb_neq _ _)).
  2:{ intros Heq. apply (Hne 0%nat). by rewrite Nat.add_0_r. }
  rewrite <- app_assoc, find_block_padded by done.
  cbn [app find_block]. rewrite Hclose. apply IH.
  intros i. replace (S index + i)%nat with (index + S i)%nat by lia. apply Hne.
Qed.

End Switch.

Lemma table_get_replicate n k v :
  table_get (replicate n 0) k = Some v -> v = 0.
Proof.
  unfold table_get. destruct (k <? 0); [done|].
  by intros [-> _]%lookup_replicate.
Qed.

Section Build.

Variable TABLE_PREFIX : string.
Variables ARG_BUF ARG_OFF : string.
Variable prologue : Ref -> list string.
Variable tailTo : Target -> list string.
Variable Transform_build : Transform -> string -> string.

Lemma build_switch_app this nm out :
  build_switch ARG_BUF ARG_OFF tailTo Transform_build this nm out
  = out ++ build_switch ARG_BUF ARG_OFF tailTo Transform_build this nm [].
Proof.
  unfold build_switch, indent. rewrite build_cases_app. symmetry.
  rewrite build_cases_app. by rewrite <- !app_assoc.
Qed.

Lemma build_switch_lines this nm :
  exists line,
    build_switch ARG_BUF ARG_OFF tailTo Transform_build this nm []
    = ("switch (" +:+ line)
        :: build_cases tailTo [] (edges this) 0
        ++ "  default: {"
        :: map (fun line => "    " +:+ line) (tailTo (otherwise this))
        ++ ["  }"; "}"].
Proof.
  eexists. unfold build_switch, indent. rewrite build_cases_app.
  cbn [app]. rewrite <- !app_assoc. cbn [app]. reflexivity.
Qed.

Lemma switch_route_case this nm i e :
  edges this !! i = Some e ->
  switch_route (build_switch ARG_BUF ARG_OFF tailTo Transform_build this nm [])
               (Z.of_nat i + 1)
  = map (fun line => "    " +:+ line)
        (tailTo (mkTarget (noAdvance e) (node e) None)).
Proof.
  intros Hi. destruct (build_switch_lines this nm) as [line ->].
  unfold switch_route. cbn [find_block].
  change (String.eqb ("switch (" +:+ line) (case_header (Z.of_nat i + 1)))
    with false. cbv iota.
  by rewrite (find_block_case tailTo (edges this) 0 i e).
Qed.

Lemma switch_route_default this nm :
  switch_route (build_switch ARG_BUF ARG_OFF tailTo Transform_build this nm [])
               0
  = map (fun line => "    " +:+ line) (tailTo (otherwise this)).
Proof.
  destruct (build_switch_lines this nm) as [line ->].
  unfold switch_route. cbn [find_block].
  change (String.eqb ("switch (" +:+ line) (case_header 0)) with false.
  change (String.eqb ("switch (" +:+ line) "  default: {") with false.
  cbv iota.
  rewrite find_block_past_cases; [| |done|].
  2:{ intros; apply padded_not_case_header. }
  2:{ intros i Heq. apply case_header_inj in Heq. lia. }
  cbn [find_block].
  change (String.eqb "  default: {" (case_header 0)) with false.
  cbv iota. rewrite find_block_padded by (intros; apply padded_not_case_header).
  cbn [find_block].
  change (String.eqb "  }" (case_header 0)) with false.
  change (String.eqb "}" (case_header 0)) with false. cbv iota.
  rewrite find_block_past_cases; [| |done|].
  2:{ intros; apply padded_not_default. }
  2:{ intros i Heq. apply String.eqb_eq in Heq. discriminate Heq. }
  cbn [find_block]. rewrite String.eqb_refl.
  by rewrite block_body_padded.
Qed.

(** C8: building the table of a node in which one byte is a key of two
    edges throws an AssertionError; at the throw no entry of the table has
    been written twice (an entry is 0 or the number of the first edge that
    lists it).  When the key arrays list pairwise disjoint sets of bytes
    the assertion never fails and the table is built and registered. *)
Theorem buildTable_fails_on_shared_key this ctx :
  (forall i j ei ej k,
     i <> j -> edges this !! i = Some ei -> edges this !! j = Some ej ->
     k ∈ keys ei -> k ∈ keys ej ->
     buildTable TABLE_PREFIX this ctx = Throw (AssertionError None) /\
     exists t key actual,
       fill_edges (replicate (Z.to_nat (MAX_CHAR + 1)) 0) (edges this) 0
       = Thrown t key actual /\
       actual <> Some 0 /\ table_get t key = actual /\
       forall b v, table_get t b = Some v ->
         v = 0 \/ exists owner, first_owner (edges this) 0 b = Some owner /\
                                v = Z.of_nat owner + 1) /\
  (Forall key_set (edges this) -> pairwise_disjoint (edges this) ->
     exists tbl,
       fill_edges (replicate (Z.to_nat (MAX_CHAR + 1)) 0) (edges this) 0
       = Filled tbl /\
       buildTable TABLE_PREFIX this ctx = Ok (table TABLE_PREFIX ctx tbl)).
Proof.
  split.
  - intros i j ei ej k Hne Hi Hj Hki Hkj. unfold buildTable.
    destruct (fill_edges _ (edges this) 0) as [tbl|t key actual] eqn:Hfill.
    + apply fill_edges_Filled in Hfill as (_ & _ & Hdis & _).
      destruct (Hdis i j ei ej k); done.
    + split; [done|]. exists t, key, actual.
      apply fill_edges_Thrown in Hfill as (Hact & Hget & _ & Hframe).
      split; [done|]. split; [done|]. split; [done|].
      intros b v Hb. destruct (Hframe b) as [Heq|(_ & owner & Hown & Heq)].
      * left. rewrite Heq in Hb. by apply table_get_replicate in Hb.
      * right. exists owner. split; [done|]. congruence.
  - intros Hsets Hdis. unfold buildTable.
    destruct (fill_edges_total (replicate (Z.to_nat (MAX_CHAR + 1)) 0)
                (edges this) 0) as [tbl Hfill]; [| done | |].
    + eapply Forall_impl; [exact Hsets|]. by intros e [? _].
    + intros e k He Hk. apply table_get_initial.
      rewrite Forall_forall in Hsets. destruct (Hsets e He) as [_ Hbytes].
      rewrite Forall_forall in Hbytes. by apply Hbytes.
    + exists tbl. by rewrite Hfill.
Qed.

(** C7: for a node whose key arrays list pairwise disjoint sets of bytes,
    the table has 256 entries; the entry of a byte listed by edge number
    [i] is [i + 1] and the entry of a byte that no edge lists is 0.  In the
    emitted switch, table value [i + 1] runs the jump to the target of edge
    number [i] and table value 0 runs the jump to the otherwise edge. *)
Theorem table_dispatch_routes_to_edge this ctx out :
  Forall key_set (edges this) -> pairwise_disjoint (edges this) ->
  exists tbl,
    let '(nm, ctx') := table TABLE_PREFIX ctx tbl in
    let sw :=
      build_switch ARG_BUF ARG_OFF tailTo Transform_build this nm [] in
    buildTable TABLE_PREFIX this ctx = Ok (nm, ctx') /\
    length tbl = 256%nat /\
    (forall i e k, edges this !! i = Some e -> k ∈ keys e ->
                   table_get tbl k = Some (Z.of_nat i + 1)) /\
    (forall k, is_byte k -> (forall e, e ∈ edges this -> k ∉ keys e) ->
               table_get tbl k = Some 0) /\
    doBuild TABLE_PREFIX ARG_BUF ARG_OFF prologue tailTo Transform_build
            this ctx out
    = Ok (out ++ prologue this ++ sw, ctx') /\
    (forall i e, edges this !! i = Some e ->
       switch_route sw (Z.of_nat i + 1)
       = map (fun line => "    " +:+ line)
             (tailTo (mkTarget (noAdvance e) (node e) None))) /\
    switch_route sw 0
    = map (fun line => "    " +:+ line) (tailTo (otherwise this)).
Proof.
  intros Hsets Hdis.
  destruct (fill_edges_total (replicate (Z.to_nat (MAX_CHAR + 1)) 0)
              (edges this) 0) as [tbl Hfill]; [| done | |].
  { eapply Forall_impl; [exact Hsets|]. by intros e [? _]. }
  { intros e k He Hk. apply table_get_initial.
    rewrite Forall_forall in Hsets. destruct (Hsets e He) as [_ Hbytes].
    rewrite Forall_forall in Hbytes. by apply Hbytes. }
  exists tbl.
  assert (Hbuild : buildTable TABLE_PREFIX this ctx
                   = Ok (table TABLE_PREFIX ctx tbl)).
  { unfold buildTable. by rewrite Hfill. }
  apply fill_edges_Filled in Hfill as (Hlen & _ & _ & _ & Hread).
  destruct (table TABLE_PREFIX ctx tbl) as [nm ctx'] eqn:Htable.
  split; [done|]. split.
  { rewrite Hlen, length_replicate. done. }
  split.
  { intros i e k Hi Hk. rewrite Hread.
    by rewrite (first_owner_disjoint _ 0 i e k). }
  split.
  { intros k Hk Hnone. rewrite Hread, first_owner_None by done.
    by apply table_get_initial. }
  split.
  { unfold doBuild. rewrite Hbuild. rewrite build_switch_app.
    by rewrite <- app_assoc. }
  split.
  - intros i e Hi. by apply switch_route_case.
  - apply switch_route_default.
Qed.

End Build.

Lemma lower_upper_key_sets : Forall key_set (edges Samples.lower_upper).
Proof.
  repeat constructor; try (unfold is_byte, MAX_CHAR; lia);
    rewrite ?elem_of_cons; try apply not_elem_of_nil.
  intros [?|?%elem_of_nil]; done.
Qed.

Lemma lower_upper_disjoint : pairwise_disjoint (edges Samples.lower_upper).
Proof.
  apply pairwise_disjoint_cons. split.
  - intros e' k ->%list_elem_of_singleton Hk Hk'. simpl in *.
    apply list_elem_of_singleton in Hk' as ->.
    apply elem_of_cons in Hk as [?|Hk]; [done|].
    by apply list_elem_of_singleton in Hk.
  - apply pairwise_disjoint_cons. split.
    + by intros e' k ?%elem_of_nil.
    + by intros i j ei ej k ?.
Qed.

Lemma buildTable_fails_on_shared_key_witness :
  buildTable "llparse_table" Samples.shared_key new_Compilation
  = Throw (AssertionError None) /\
  exists tbl,
    buildTable "llparse_table" Samples.lower_upper new_Compilation
    = Ok (table "llparse_table" new_Compilation tbl).
Proof.
  split.
  - destruct (buildTable_fails_on_shared_key "llparse_table"
                Samples.shared_key new_Compilation) as [H _].
    apply (H 0%nat 1%nat (mkEdge [97; 98] 10%positive false)
             (mkEdge [98] 11%positive false) 98);
      [lia | reflexivity | reflexivity | |].
    + apply list_elem_of_further, list_elem_of_here.
    + apply list_elem_of_here.
  - destruct (buildTable_fails_on_shared_key "llparse_table"
                Samples.lower_upper new_Compilation) as [_ H].
    destruct (H lower_upper_key_sets lower_upper_disjoint) as [tbl [_ Hb]].
    by exists tbl.
Defined.

Lemma table_dispatch_routes_to_edge_witness :
  exists tbl,
    table_get tbl 97 = Some 1 /\ table_get tbl 98 = Some 1 /\
    table_get tbl 65 = Some 2 /\ table_get tbl 48 = Some 0 /\
    switch_route
      (build_switch "buf" "off" Samples.jump_lines Samples.identity_transform
                    Samples.lower_upper "llparse_table0" []) 2
    = ["    off++;"; "    current = S_11;"; "    continue;"].
Proof.
  destruct (table_dispatch_routes_to_edge "llparse_table" "buf" "off"
              Samples.no_prologue Samples.jump_lines
              Samples.identity_transform Samples.lower_upper new_Compilation
              [] lower_upper_key_sets lower_upper_disjoint)
    as (tbl & _ & _ & Hedge & Hnone & _ & Hcase & _).
  exists tbl. split; [|split; [|split; [|split]]].
  - apply (Hedge 0%nat (mkEdge [97; 98] 10%positive false));
      [reflexivity | apply list_elem_of_here].
  - apply (Hedge 0%nat (mkEdge [97; 98] 10%positive false));
      [reflexivity | apply list_elem_of_further, list_elem_of_here].
  - apply (Hedge 1%nat (mkEdge [65] 11%positive false));
      [reflexivity | apply list_elem_of_here].
  - apply Hnone; [unfold is_byte, MAX_CHAR; lia|].
    intros e He. simpl in He.
    apply elem_of_cons in He as [->|He]; simpl.
    + rewrite !not_elem_of_cons. repeat split; try done. apply not_elem_of_nil.
    + apply list_elem_of_singleton in He as ->. simpl.
      rewrite !not_elem_of_cons. repeat split; try done. apply not_elem_of_nil.
  - apply (Hcase 1%nat (mkEdge [65] 11%positive false)). reflexivity.
Defined.

End TableLookupProps.

(** ** Further properties of the execute entry point *)

Module ExecuteMore.
Import Bitcode Bitcode.ExecuteBuilder.

Lemma restartSpans_slot spans s pos i :
  load_span_pos (restartSpans spans s pos) i = load_span_pos s i \/
  (load_span_pos s i <> null /\ load_span_pos (restartSpans spans s pos) i = pos).
Proof.
  destruct (decide (load_span_pos s i = null)) as [Hnull|Hact].
  - left. unfold load_span_pos at 1 2.
    by rewrite ExecuteProps.restartSpans_inactive.
  - revert s Hact. induction spans as [|span rest IH]; intros s Hact; simpl;
      [by left|].
    destruct (load_span_pos s (index span) =? null) eqn:E; [by apply IH|].
    destruct (decide (index span = i)) as [<-|Hne].
    + right. split; [done|]. apply ExecuteProps.restartSpans_keeps_pos.
      by apply ExecuteProps.load_store_same.
    + destruct (IH (store_span_pos s (index span) pos)) as [H|[_ H]].
      * by rewrite ExecuteProps.load_store_other.
      * left. by rewrite H, ExecuteProps.load_store_other.
      * by right.
Qed.

Lemma restartSpans_settled spans s pos :
  (forall span, In span spans -> load_span_pos s (index span) <> null ->
                load_span_pos s (index span) = pos) ->
  restartSpans spans s pos = s.
Proof.
  induction spans as [|span rest IH]; intros Hpos; simpl; [done|].
  destruct (load_span_pos s (index span) =? null) eqn:E.
  - apply IH. intros sp Hin. apply Hpos. by right.
  - apply Z.eqb_neq in E.
    assert (Hslot : span_pos s !! index span = Some pos).
    { pose proof (Hpos span (or_introl eq_refl) E) as H.
      unfold load_span_pos in *.
      destruct (span_pos s !! index span); simpl in *; congruence. }
    assert (Hsame : store_span_pos s (index span) pos = s).
    { unfold store_span_pos. rewrite list_insert_id by done. by destruct s. }
    rewrite Hsame. apply IH. intros sp Hin. apply Hpos. by right.
Qed.

(** X1: the span restart does not change which spans are active when the
    call starts at a non-null position (an inactive slot stays null, an
    active one is rebased to a non-null position), and doing it twice is
    doing it once. *)
Theorem restartSpans_keeps_activity_and_is_idempotent spans s pos :
  (pos <> null ->
   forall span, is_active (restartSpans spans s pos) span = is_active s span)
  /\ restartSpans spans (restartSpans spans s pos) pos
     = restartSpans spans s pos.
Proof.
  split.
  - intros Hpos span. unfold is_active.
    destruct (restartSpans_slot spans s pos (index span)) as [->|[Hact ->]];
      [done|].
    apply Z.eqb_neq in Hpos, Hact. by rewrite Hpos, Hact.
  - apply restartSpans_settled. intros span Hin Hact.
    destruct (decide (load_span_pos s (index span) = null)) as [Hnull|Hact0].
    + exfalso. apply Hact. unfold load_span_pos at 1.
      by rewrite ExecuteProps.restartSpans_inactive.
    + by apply ExecuteProps.restartSpans_active.
Qed.

Lemma restartSpans_keeps_activity_and_is_idempotent_witness :
  is_active (restartSpans Samples.one_span Samples.open_span 200)
            (mkSpan 0 ["on_span"]) = true.
Proof.
  destruct (restartSpans_keeps_activity_and_is_idempotent Samples.one_span
              Samples.open_span 200) as [H _].
  rewrite H; [reflexivity | discriminate].
Defined.

Section Calls.

Variable callback : SpanCallback.
Variable nodes : Z -> NodeFn.

Lemma feed_erred spans chunks s log :
  error s <> 0 ->
  feed callback nodes spans chunks s log
  = (s, log, replicate (length chunks) (error s)).
Proof.
  intros H. induction chunks as [|[pos endpos] rest IH]; simpl; [done|].
  rewrite ExecuteProps.execute_erred by done. by rewrite IH.
Qed.

(** X2: whatever path a call takes, a nonzero return code is the code the
    record holds afterwards, and every later call on the record returns it
    again without invoking a callback or changing the record. *)
Theorem nonzero_result_is_persisted spans s pos endpos log s' log' code :
  execute callback nodes spans s pos endpos log = (s', log', code) ->
  code <> 0 ->
  error s' = code /\
  forall chunks,
    feed callback nodes spans chunks s' log'
    = (s', log', replicate (length chunks) code).
Proof.
  intros Hexec Hcode.
  assert (Herr : error s' = code).
  { destruct (decide (error s = 0)) as [Hz|Hnz].
    - rewrite ExecuteProps.execute_finish in Hexec by done.
      destruct (nodes _ _ _ _ _) as [[s1 log1] call]. unfold finish in Hexec.
      destruct (call =? null); [by injection Hexec as <- _ <-|].
      pose proof (ExecuteProps.executeSpans_outcome callback spans
                    (set_current s1 call) endpos log1) as H.
      destruct (executeSpans callback spans (set_current s1 call) endpos log1)
        as [[s2 log2] [c|]].
      + destruct H as (_ & -> & _). by injection Hexec as <- _ <-.
      + by injection Hexec as _ _ <-.
    - rewrite ExecuteProps.execute_erred in Hexec by done.
      by injection Hexec as <- _ <-. }
  split; [done|]. intros chunks. rewrite <- Herr. apply feed_erred. congruence.
Qed.

(** X3: pausing and resuming.  A call that dispatches into a Pause node
    returns the node's code with no finalize step and leaves the span slots
    as the span restart left them.  While the code stays in the record
    every call returns it; once the embedder has reset the error field, the
    next call dispatches into the Pause node's otherwise target. *)
Theorem resume_after_pause spans s pos endpos log ref pos' endpos' :
  error s = 0 ->
  nodes (current (restartSpans spans s pos)) = Pause.doBuild ref ->
  let '(s1, log1, code) := execute callback nodes spans s pos endpos log in
  code = Pause.code ref /\ log1 = log /\
  span_pos s1 = span_pos (restartSpans spans s pos) /\
  (Pause.code ref <> 0 ->
     execute callback nodes spans s1 pos' endpos' log1 = (s1, log1, code)) /\
  execute callback nodes spans (set_error s1 0) pos' endpos' log1
  = finish callback spans endpos'
      (nodes (Pause.otherwise ref)
             (restartSpans spans (set_error s1 0) pos') pos' endpos' log1).
Proof.
  intros Herr Hnode.
  rewrite (ExecuteProps.execute_at_pause callback nodes spans s pos endpos log
             ref Herr Hnode).
  split; [done|]. split; [done|]. split; [done|]. split.
  - intros Hcode. by apply ExecuteProps.execute_erred.
  - rewrite ExecuteProps.execute_finish by done.
    destruct (ExecuteProps.restartSpans_frame spans
                (set_error (set_current (Pause.storeError ref
                   (restartSpans spans s pos) pos) (Pause.otherwise ref)) 0)
                pos') as (-> & _). done.
Qed.

End Calls.

Lemma nonzero_result_is_persisted_witness :
  feed Samples.rejecting Samples.span_nodes Samples.one_span
       [(204, 208); (208, 212)]
       (mkState 2 5 EmptyString 204 [200] [EmptyString])
       [mkEvent "on_span" 200 204]
  = (mkState 2 5 EmptyString 204 [200] [EmptyString],
     [mkEvent "on_span" 200 204], [5; 5]).
Proof.
  destruct (nonzero_result_is_persisted Samples.rejecting Samples.span_nodes
              Samples.one_span Samples.open_span 200 204 []
              (mkState 2 5 EmptyString 204 [200] [EmptyString])
              [mkEvent "on_span" 200 204] 5 eq_refl) as [_ H];
    [discriminate|].
  exact (H [(204, 208); (208, 212)]).
Defined.

End ExecuteMore.

(** ** Further properties of the emission context *)

Module CompilationMore.
Import Js.

Lemma resume_after_pause_witness :
  Bitcode.ExecuteBuilder.execute Samples.accepting Samples.pause_nodes
    Samples.one_span (Samples.fresh_at 1) 100 104 []
  = (Bitcode.mkState 2 21 "paused" 100 [0] [EmptyString], [], 21) /\
  Bitcode.ExecuteBuilder.execute Samples.accepting Samples.pause_nodes
    Samples.one_span (Bitcode.mkState 2 0 "paused" 100 [0] [EmptyString])
    104 108 []
  = (Bitcode.mkState 2 0 "paused" 100 [0] [EmptyString], [], 0).
Proof.
  pose proof (ExecuteMore.resume_after_pause Samples.accepting
                Samples.pause_nodes Samples.one_span (Samples.fresh_at 1)
                100 104 [] Samples.pause_21 104 108 eq_refl eq_refl) as H.
  simpl in H. destruct H as (_ & _ & _ & _ & H).
  split; [reflexivity | exact H].
Defined.

(** X4: state fields do not alias.  The start-offset fields of two spans
    and the callback fields of two spans are the same only for the same
    span; no start-offset field is a callback field, and neither is one of
    the fixed fields of the state. *)
Theorem span_fields_do_not_alias i j :
  (spanOffField i = spanOffField j -> i = j) /\
  (spanCbField i = spanCbField j -> i = j) /\
  spanOffField i <> spanCbField j /\
  (forall f,
     In f [indexField; currentField; statusField; errorField; reasonField;
           errorOffField] ->
     spanOffField i <> f /\ spanCbField j <> f).
Proof.
  unfold spanOffField, spanCbField, stateField.
  split; [|split; [|split]].
  - intros H. apply (inj (String.append "this.")) in H.
    apply (inj (String.append "_spanOff")) in H. by apply (inj pretty) in H.
  - intros H. apply (inj (String.append "this.")) in H.
    apply (inj (String.append "_spanCb")) in H. by apply (inj pretty) in H.
  - intros H. apply String.eqb_eq in H. discriminate H.
  - intros f Hf. simpl in Hf.
    destruct Hf as [<-|[<-|[<-|[<-|[<-|[<-|[]]]]]]];
      split; intros H; apply String.eqb_eq in H; discriminate H.
Qed.

Lemma span_fields_do_not_alias_witness :
  spanOffField 1 <> spanOffField 10 /\ spanOffField 1 <> statusField.
Proof.
  destruct (span_fields_do_not_alias 1 10) as (H & _ & _ & Hf). split.
  - intros Heq. apply H in Heq. discriminate Heq.
  - apply (Hf statusField). simpl. auto.
Defined.

(** X5: [getFieldType] returns the type of the first property that has the
    name, and throws its "not found" Error exactly when no property has
    it. *)
Theorem getFieldType_finds_first properties field :
  match getFieldType properties field with
  | inl ty =>
      exists before property after,
        properties = before ++ property :: after /\
        property_name property = field /\ property_ty property = ty /\
        Forall (fun q => property_name q <> field) before
  | inr message =>
      Forall (fun q => property_name q <> field) properties /\
      message = "Field " +:+ double_quote +:+ field +:+ double_quote
                  +:+ " not found"
  end.
Proof.
  induction properties as [|p rest IH]; simpl; [done|].
  destruct (String.eqb (property_name p) field) eqn:E.
  - apply String.eqb_eq in E. by exists [], p, rest.
  - apply String.eqb_neq in E. destruct (getFieldType rest field) as [ty|msg].
    + destruct IH as (before & q & after & -> & ? & ? & ?).
      exists (p :: before), q, after. repeat split; try done.
      by constructor.
    + destruct IH as [? ->]. split; [by constructor | done].
Qed.

Section Tables.

Variable TABLE_PREFIX : string.

Lemma tables_ok_snoc ts value :
  tables_ok TABLE_PREFIX ts ->
  tables_ok TABLE_PREFIX
    (ts ++ [mkTable (TABLE_PREFIX +:+ pretty (length ts)) value]).
Proof.
  intros Hok i t Hi. apply lookup_snoc_Some in Hi as [[_ Hi]|[-> <-]].
  - by apply Hok.
  - done.
Qed.

Lemma tables_ok_NoDup ts :
  tables_ok TABLE_PREFIX ts -> NoDup (map table_name ts).
Proof.
  intros Hok. apply NoDup_alt. intros i j nm Hi Hj.
  change (map table_name ts) with (table_name <$> ts) in Hi, Hj.
  rewrite list_lookup_fmap in Hi, Hj.
  destruct (ts !! i) as [ti|] eqn:Ei; [|done].
  destruct (ts !! j) as [tj|] eqn:Ej; [|done].
  simpl in Hi, Hj. injection Hi as Hi. injection Hj as Hj.
  apply Hok in Ei, Ej. rewrite Ei in Hi. rewrite Ej in Hj.
  rewrite <- Hj in Hi. apply (inj (String.append TABLE_PREFIX)) in Hi.
  by apply (inj pretty) in Hi.
Qed.

(** X6: tables are not interned.  Two [table] calls with the same value
    register two tables under two different names, after the tables that
    were there; table number [i] is always named [TABLE_PREFIX + i], so no
    two tables of a compilation share a name. *)
Theorem table_registers_every_call c value :
  tables_ok TABLE_PREFIX (tables c) ->
  let '(n1, c1) := table TABLE_PREFIX c value in
  let '(n2, c2) := table TABLE_PREFIX c1 value in
  n1 <> n2 /\
  tables c2 = tables c ++ [mkTable n1 value; mkTable n2 value] /\
  tables_ok TABLE_PREFIX (tables c2) /\
  NoDup (map table_name (tables c2)) /\
  blobs c2 = blobs c /\ codeMap c2 = codeMap c.
Proof.
  intros Hok. simpl.
  assert (Hok2 : tables_ok TABLE_PREFIX
            ((tables c ++ [mkTable (TABLE_PREFIX +:+ pretty (length (tables c)))
                                   value])
             ++ [mkTable (TABLE_PREFIX +:+ pretty
                            (length (tables c ++
                               [mkTable (TABLE_PREFIX +:+
                                           pretty (length (tables c))) value])))
                         value])).
  { by do 2 apply tables_ok_snoc. }
  split; [|split; [|split; [|split]]]; try done.
  - intros H. apply (inj (String.append TABLE_PREFIX)) in H.
    apply (inj pretty) in H. rewrite length_app in H. simpl in H. lia.
  - by rewrite <- app_assoc.
  - by apply tables_ok_NoDup.
Qed.

End Tables.

Lemma table_registers_every_call_witness :
  (table "llparse_table" new_Compilation [1; 2]).1
  <> (table "llparse_table"
            (table "llparse_table" new_Compilation [1; 2]).2 [1; 2]).1.
Proof.
  pose proof (table_registers_every_call "llparse_table" new_Compilation
                [1; 2]) as H.
  simpl in H. destruct H as (H & _).
  { intros i t Hi. by rewrite lookup_nil in Hi. }
  exact H.
Defined.

(** *** The state map *)

Lemma add_states_Ok stateMap entries stateMap' :
  NoDup (map_keys stateMap) ->
  add_states stateMap entries = Ok stateMap' ->
  stateMap' = stateMap ++ entries /\ NoDup (map_keys stateMap').
Proof.
  revert stateMap. induction entries as [|[state lines] rest IH];
    intros stateMap Hnd; simpl.
  - intros [= <-]. by rewrite app_nil_r.
  - unfold addState, map_has.
    destruct (map_get stateMap state) eqn:E; [done|].
    rewrite CompilationProps.map_set_fresh by done.
    intros H. apply IH in H as [-> Hnd'].
    + split; [by rewrite <- app_assoc | done].
    + by apply CompilationProps.NoDup_keys_snoc.
Qed.

Lemma add_states_distinct stateMap entries :
  NoDup (map_keys stateMap ++ map fst entries) ->
  add_states stateMap entries = Ok (stateMap ++ entries).
Proof.
  revert stateMap. induction entries as [|[state lines] rest IH];
    intros stateMap Hnd; simpl.
  - by rewrite app_nil_r.
  - unfold addState, map_has.
    assert (Hfresh : map_get stateMap state = None).
    { apply CompilationProps.map_get_None. intros Hin.
      apply NoDup_app in Hnd as (_ & Hdisj & _).
      apply (Hdisj state Hin). simpl. apply list_elem_of_here. }
    rewrite Hfresh, CompilationProps.map_set_fresh by done.
    rewrite IH; [by rewrite <- app_assoc|].
    rewrite CompilationProps.map_keys_snoc, <- app_assoc. done.
Qed.

Lemma add_states_throws stateMap entries e :
  add_states stateMap entries = Throw e -> e = AssertionError None.
Proof.
  revert stateMap. induction entries as [|[state lines] rest IH];
    intros stateMap; simpl; [done|].
  unfold addState. destruct (map_has stateMap state); [by intros [= <-]|].
  apply IH.
Qed.

(** X7: a state is added once.  [addState] throws for a name that the map
    already has and never replaces the lines of a state; a run of
    [addState] calls on an empty map goes through exactly when the names
    are pairwise different, and the map then lists the states as they were
    added. *)
Theorem add_states_iff_distinct entries :
  (NoDup (map fst entries) -> add_states [] entries = Ok entries) /\
  (~ NoDup (map fst entries) ->
   add_states [] entries = Throw (AssertionError None)) /\
  (forall stateMap state lines lines',
     map_get stateMap state = Some lines ->
     addState stateMap state lines' = Throw (AssertionError None)).
Proof.
  split; [|split].
  - intros Hnd. by apply (add_states_distinct [] entries).
  - intros Hdup. destruct (add_states [] entries) as [m|e] eqn:E.
    + apply add_states_Ok in E as [-> Hnd]; [|apply NoDup_nil_2].
      by destruct Hdup.
    + by apply add_states_throws in E as ->.
  - intros stateMap state lines lines' H. unfold addState, map_has.
    by rewrite H.
Qed.

Lemma add_states_iff_distinct_witness :
  add_states [] [("s_start", ["a"]); ("s_body", ["b"])]
  = Ok [("s_start", ["a"]); ("s_body", ["b"])] /\
  add_states [] [("s_start", ["a"]); ("s_start", ["b"])]
  = Throw (AssertionError None).
Proof.
  destruct (add_states_iff_distinct [("s_start", ["a"]); ("s_body", ["b"])])
    as (H1 & _ & _).
  destruct (add_states_iff_distinct [("s_start", ["a"]); ("s_start", ["b"])])
    as (_ & H2 & _).
  split.
  - apply H1. simpl. rewrite !NoDup_cons, !not_elem_of_cons.
    repeat split; try done; try apply not_elem_of_nil; apply NoDup_nil_2.
  - apply H2. simpl. intros [Hin _]%NoDup_cons. apply Hin, list_elem_of_here.
Defined.

Lemma state_enum_closed names index out :
  state_enum names index out
  = out ++ imap (fun k nm => "const " +:+ nm +:+ " = "
                               +:+ pretty (index + k)%nat +:+ ";") names.
Proof.
  revert index out. induction names as [|nm rest IH]; intros index out; simpl.
  - by rewrite app_nil_r.
  - rewrite IH, <- app_assoc. simpl. rewrite Nat.add_0_r.
    apply (f_equal (app out)), (f_equal (cons _)).
    apply imap_ext. intros k x _. simpl.
    by replace (S (index + k)) with (index + S k)%nat by lia.
Qed.

(** X8: [buildStateEnum] declares the error state as 0 and the states of
    the map as 1, 2, ... in the order in which they were added: one
    declaration per state, the state at position [k] getting [k + 1]. *)
Theorem buildStateEnum_numbers_states STATE_ERROR stateMap out :
  let lines := buildStateEnum STATE_ERROR stateMap out in
  length lines = (length out + 1 + length stateMap)%nat /\
  lines !! length out = Some ("const " +:+ STATE_ERROR +:+ " = 0;") /\
  forall k nm body,
    stateMap !! k = Some (nm, body) ->
    lines !! (length out + 1 + k)%nat
    = Some ("const " +:+ nm +:+ " = " +:+ pretty (k + 1)%nat +:+ ";").
Proof.
  unfold buildStateEnum. rewrite state_enum_closed. cbn zeta.
  split; [|split].
  - rewrite !length_app, length_imap. unfold map_keys. rewrite length_map.
    simpl. lia.
  - rewrite <- app_assoc. rewrite lookup_app_r by lia.
    by rewrite Nat.sub_diag.
  - intros k nm body Hk.
    rewrite lookup_app_r by (rewrite length_app; simpl; lia).
    rewrite length_app. simpl.
    replace (length out + 1 + k - (length out + 1))%nat with k by lia.
    rewrite list_lookup_imap. unfold map_keys.
    change (map fst stateMap) with (fst <$> stateMap).
    rewrite list_lookup_fmap, Hk. simpl. by rewrite Nat.add_1_r.
Qed.

Lemma buildStateEnum_numbers_states_witness :
  buildStateEnum "S_ERROR" [("s_start", ["a"]); ("s_body", ["b"])] []
  !! 2%nat = Some "const s_body = 2;".
Proof.
  destruct (buildStateEnum_numbers_states "S_ERROR"
              [("s_start", ["a"]); ("s_body", ["b"])] []) as (_ & _ & H).
  exact (H 1%nat "s_body" ["b"] eq_refl).
Defined.

Lemma fold_state_blocks stateMap out :
  buildStates stateMap out
  = out ++ concat (map (fun '(nm, lines) =>
                          ("case " +:+ nm +:+ ": {")
                            :: map (fun line => "  " +:+ line) lines
                            ++ ["  unreachable();"; "}"]) stateMap).
Proof.
  unfold buildStates. revert out.
  induction stateMap as [|[nm lines] rest IH]; intros out.
  - simpl. by rewrite app_nil_r.
  - cbn [fold_left map concat]. rewrite IH. cbn [app].
    rewrite <- !app_assoc. cbn [app]. by rewrite <- ?app_assoc.
Qed.

Lemma state_body_padded lines rest :
  state_body (map (fun line => "  " +:+ line) lines
                ++ "  unreachable();" :: "}" :: rest)
  = map (fun line => "  " +:+ line) lines ++ ["  unreachable();"].
Proof.
  induction lines as [|line lines IH]; [done|].
  cbn [map app state_body].
  change (String.eqb ("  " +:+ line) "}") with false. cbv iota.
  by rewrite IH.
Qed.

Lemma state_block_padded nm lines rest :
  state_block nm (map (fun line => "  " +:+ line) lines ++ rest)
  = state_block nm rest.
Proof.
  induction lines as [|line lines IH]; [done|].
  cbn [map app state_block].
  change (String.eqb ("  " +:+ line) ("case " +:+ nm +:+ ": {")) with false.
  by cbv iota.
Qed.

(** X9: in the emitted state switch every state has a block of its own.
    For a state map without repeated names, the block that runs for a state
    consists of the lines of that state, indented, followed by
    [unreachable();]: it is found under the state's own label, whatever the
    lines of the other states contain, and it does not run on into the next
    state. *)
Theorem buildStates_block_of_state stateMap k nm lines :
  NoDup (map_keys stateMap) ->
  stateMap !! k = Some (nm, lines) ->
  state_block nm (buildStates stateMap [])
  = Some (map (fun line => "  " +:+ line) lines ++ ["  unreachable();"]).
Proof.
  rewrite fold_state_blocks. cbn [app].
  revert k. induction stateMap as [|[nm0 lines0] rest IH]; intros k Hnd Hk;
    [done|].
  apply NoDup_cons in Hnd as [Hfresh Hnd].
  cbn [map concat app state_block].
  destruct k as [|k]; simpl in Hk.
  - injection Hk as -> ->. rewrite String.eqb_refl.
    rewrite <- app_assoc. cbn [app]. by rewrite state_body_padded.
  - rewrite (proj2 (String.eqb_neq _ _)).
    2:{ intros Heq. apply (inj (String.append "case ")) in Heq.
        apply TableLookupProps.append_inj_r in Heq. subst nm0.
        apply Hfresh. apply list_elem_of_lookup_2 in Hk.
        by apply (list_elem_of_fmap_2 fst) in Hk. }
    rewrite <- app_assoc, state_block_padded. cbn [app state_block].
    change (String.eqb "  unreachable();" ("case " +:+ nm +:+ ": {"))
      with false.
    change (String.eqb "}" ("case " +:+ nm +:+ ": {")) with false.
    cbv iota. by apply (IH k).
Qed.

Lemma buildStates_block_of_state_witness :
  state_block "s_body"
    (buildStates [("s_start", ["}"; "case s_body: {"]); ("s_body", ["b"])] [])
  = Some ["  b"; "  unreachable();"].
Proof.
  apply (buildStates_block_of_state
           [("s_start", ["}"; "case s_body: {"]); ("s_body", ["b"])] 1%nat
           "s_body" ["b"]); [|reflexivity].
  simpl. rewrite !NoDup_cons, !not_elem_of_cons.
  repeat split; try done; try apply not_elem_of_nil; apply NoDup_nil_2.
Defined.

(** *** Interning of callbacks and matchers *)

Lemma map_get_app_l {K V} `{EqDecision K} (m m' : list (K * V)) k v :
  map_get m k = Some v -> map_get (m ++ m') k = Some v.
Proof.
  induction m as [|[k' v'] m IH]; simpl; [done|].
  destruct (decide (k' = k)); [done | apply IH].
Qed.

Lemma map_get_set_keeps {K V} `{EqDecision K} (m : list (K * V)) k v k' v' :
  map_get m k' = None -> map_get m k = Some v ->
  map_get (map_set m k' v') k = Some v.
Proof.
  intros Hfresh Hget. rewrite CompilationProps.map_set_fresh by done.
  by apply map_get_app_l.
Qed.

Section Interning.

Variable ref : Code -> FrontendCode.
Variable unwrapCode : positive -> Code.
Variable unwrapTransform : positive -> Transform.
Variable transform_name : Transform -> string.
Variable new_MatchSequence : Transform -> MatchSequence.
Variable MatchSequence_getName : MatchSequence -> string.

Lemma buildCode_keeps c code r c1 :
  buildCode ref c code = Ok (r, c1) ->
  blobs c1 = blobs c /\ tables c1 = tables c /\
  matchSequence c1 = matchSequence c /\
  forall nm x, map_get (codeMap c) nm = Some x ->
               map_get (codeMap c1) nm = Some x.
Proof.
  unfold buildCode, map_has.
  destruct (map_get (codeMap c) (name (ref code))) as [existing|] eqn:E.
  - destruct (decide (Some existing = Some code)); [|done].
    by intros [= <- <-].
  - intros [= <- <-]. simpl. repeat split.
    intros nm x Hx. by apply map_get_set_keeps.
Qed.

Lemma buildCode_registered c code :
  map_get (codeMap c) (name (ref code)) = Some code ->
  buildCode ref c code = Ok ("this._" +:+ name (ref code), c).
Proof.
  intros H. unfold buildCode, map_has. rewrite H. by rewrite decide_True.
Qed.

Lemma reserve_callbacks_Ok c cbs c' :
  codeMap_ok ref (codeMap c) ->
  reserve_callbacks ref unwrapCode c cbs = Ok c' ->
  codeMap_ok ref (codeMap c') /\
  blobs c' = blobs c /\ tables c' = tables c /\
  (forall nm x, map_get (codeMap c) nm = Some x ->
                map_get (codeMap c') nm = Some x) /\
  (forall cb, cb ∈ cbs ->
     map_get (codeMap c') (name (ref (unwrapCode cb)))
     = Some (unwrapCode cb)).
Proof.
  revert c. induction cbs as [|cb rest IH]; intros c Hok; simpl.
  - intros [= <-]. do 4 (split; [done|]). by intros cb ?%elem_of_nil.
  - destruct (buildCode ref c (unwrapCode cb)) as [[r c1]|e] eqn:Hb; [|done].
    destruct (CompilationProps.buildCode_Ok _ _ _ _ _ Hok Hb)
      as (_ & Hreg & Hok1 & _).
    destruct (buildCode_keeps _ _ _ _ Hb) as (Hbl & Htb & _ & Hkeep).
    intros (Hok' & Hbl' & Htb' & Hkeep' & Hall)%IH; [|done].
    split; [done|]. split; [congruence|]. split; [congruence|]. split.
    + intros nm x Hx. by apply Hkeep', Hkeep.
    + intros cb' [->|Hin]%elem_of_cons; [by apply Hkeep' | by apply Hall].
Qed.

Lemma reserve_callbacks_again c cbs :
  (forall cb, cb ∈ cbs ->
     map_get (codeMap c) (name (ref (unwrapCode cb)))
     = Some (unwrapCode cb)) ->
  reserve_callbacks ref unwrapCode c cbs = Ok c.
Proof.
  induction cbs as [|cb rest IH]; intros Hall; simpl; [done|].
  rewrite buildCode_registered.
  - apply IH. intros cb' Hin. apply Hall. by apply list_elem_of_further.
  - apply Hall. apply list_elem_of_here.
Qed.

Lemma reserveSpans_again c spans :
  (forall span cb, span ∈ spans -> cb ∈ span_callbacks span ->
     map_get (codeMap c) (name (ref (unwrapCode cb)))
     = Some (unwrapCode cb)) ->
  reserveSpans ref unwrapCode c spans = Ok c.
Proof.
  induction spans as [|span rest IH]; intros Hall; simpl; [done|].
  rewrite reserve_callbacks_again.
  - apply IH. intros sp cb Hsp. apply Hall. by apply list_elem_of_further.
  - intros cb. apply Hall. apply list_elem_of_here.
Qed.

(** X10: [reserveSpans] registers every callback of every span.  When it
    goes through, each callback is in the code map under its own name, what
    was registered before is still there, blobs and tables are untouched,
    and reserving the same spans again changes nothing. *)
Theorem reserveSpans_registers_callbacks c spans c' :
  codeMap_ok ref (codeMap c) ->
  reserveSpans ref unwrapCode c spans = Ok c' ->
  codeMap_ok ref (codeMap c') /\
  (forall span cb, span ∈ spans -> cb ∈ span_callbacks span ->
     map_get (codeMap c') (name (ref (unwrapCode cb)))
     = Some (unwrapCode cb)) /\
  (forall nm x, map_get (codeMap c) nm = Some x ->
                map_get (codeMap c') nm = Some x) /\
  blobs c' = blobs c /\ tables c' = tables c /\
  reserveSpans ref unwrapCode c' spans = Ok c'.
Proof.
  intros Hok Hres.
  assert (H : codeMap_ok ref (codeMap c') /\
              (forall span cb, span ∈ spans -> cb ∈ span_callbacks span ->
                 map_get (codeMap c') (name (ref (unwrapCode cb)))
                 = Some (unwrapCode cb)) /\
              (forall nm x, map_get (codeMap c) nm = Some x ->
                            map_get (codeMap c') nm = Some x) /\
              blobs c' = blobs c /\ tables c' = tables c).
  { revert c Hok Hres. induction spans as [|span rest IH]; intros c Hok; simpl.
    - intros [= <-]. split; [done|]. split; [|done].
      by intros span cb ?%elem_of_nil.
    - destruct (reserve_callbacks ref unwrapCode c (span_callbacks span))
        as [c1|e] eqn:Hcb; [|done].
      destruct (reserve_callbacks_Ok _ _ _ Hok Hcb)
        as (Hok1 & Hbl & Htb & Hkeep & Hall).
      intros (Hok' & Hall' & Hkeep' & Hbl' & Htb')%IH; [|done].
      split; [done|]. split; [|split; [|split]]; try congruence.
      + intros sp cb [->|Hin]%elem_of_cons Hcbin.
        * by apply Hkeep', Hall.
        * by apply (Hall' sp).
      + intros nm x Hx. by apply Hkeep', Hkeep. }
  destruct H as (H1 & H2 & H3 & H4 & H5).
  repeat (split; [done|]). by apply reserveSpans_again.
Qed.

(** X11: matchers are interned by the name of the transform.  After a
    [getMatchSequence] call, a call with any transform of the same name,
    and any literal, returns the same matcher and changes nothing; the
    first call keeps every matcher that was registered. *)
Theorem getMatchSequence_interned_by_name c t1 t2 select1 select2 :
  transform_name (unwrapTransform t2) = transform_name (unwrapTransform t1) ->
  let '(n1, c1) :=
    getMatchSequence unwrapTransform transform_name new_MatchSequence
                     MatchSequence_getName c t1 select1 in
  getMatchSequence unwrapTransform transform_name new_MatchSequence
                   MatchSequence_getName c1 t2 select2 = (n1, c1) /\
  (forall nm m, map_get (matchSequence c) nm = Some m ->
                map_get (matchSequence c1) nm = Some m) /\
  blobs c1 = blobs c /\ tables c1 = tables c /\ codeMap c1 = codeMap c.
Proof.
  intros Hname. unfold getMatchSequence, map_has. rewrite Hname.
  destruct (map_get (matchSequence c) (transform_name (unwrapTransform t1)))
    as [res|] eqn:E.
  - rewrite E. done.
  - simpl. rewrite CompilationProps.map_set_fresh by done.
    rewrite CompilationProps.map_get_snoc by done. simpl.
    split; [done|]. split; [|done]. intros nm m Hm. by apply map_get_app_l.
Qed.

End Interning.

Lemma reserveSpans_registers_callbacks_witness :
  reserveSpans Samples.code_store Samples.unwrap new_Compilation
    [mkSpanField 0 [1%positive; 3%positive]; mkSpanField 1 [1%positive]]
  = Ok (mkCompilation [] [] [("on_url", 1%positive); ("on_body", 3%positive)]
                      []) /\
  reserveSpans Samples.code_store Samples.unwrap
    (mkCompilation [] [] [("on_url", 1%positive); ("on_body", 3%positive)] [])
    [mkSpanField 0 [1%positive; 3%positive]; mkSpanField 1 [1%positive]]
  = Ok (mkCompilation [] [] [("on_url", 1%positive); ("on_body", 3%positive)]
                      []).
Proof.
  split; [reflexivity|].
  apply (reserveSpans_registers_callbacks Samples.code_store Samples.unwrap
           new_Compilation
           [mkSpanField 0 [1%positive; 3%positive];
            mkSpanField 1 [1%positive]]); [|reflexivity].
  apply (CompilationProps.pools_ok_new EmptyString).
Defined.

Lemma getMatchSequence_interned_by_name_witness :
  getMatchSequence Samples.unwrap Samples.transform_names Samples.matcher_of
    Samples.matcher_name
    (mkCompilation [] [] [] [("to_lower", 1%positive)]) 2%positive 5%positive
  = ("this._match_sequence_to_lower",
     mkCompilation [] [] [] [("to_lower", 1%positive)]).
Proof.
  pose proof (getMatchSequence_interned_by_name Samples.unwrap
                Samples.transform_names Samples.matcher_of
                Samples.matcher_name new_Compilation 1%positive 2%positive
                4%positive 5%positive eq_refl) as H.
  simpl in H. by destruct H as [H _].
Defined.

(** *** Pools over a whole run *)

Section Ops.

Variables BLOB_PREFIX TABLE_PREFIX : string.
Variable ref : Code -> FrontendCode.
Variable unwrapTransform : positive -> Transform.
Variable transform_name : Transform -> string.
Variable new_MatchSequence : Transform -> MatchSequence.
Variable MatchSequence_getName : MatchSequence -> string.

Lemma blobs_ok_names m :
  blobs_ok BLOB_PREFIX m -> NoDup (map snd m).
Proof.
  intros [_ Hnm]. apply NoDup_alt. intros i j nm Hi Hj.
  change (map snd m) with (snd <$> m) in Hi, Hj.
  rewrite list_lookup_fmap in Hi, Hj.
  destruct (m !! i) as [[bi ni]|] eqn:Ei; [|done].
  destruct (m !! j) as [[bj nj]|] eqn:Ej; [|done].
  simpl in Hi, Hj. injection Hi as Hi. injection Hj as Hj.
  apply Hnm in Ei, Ej. rewrite Ei in Hi. rewrite Ej in Hj.
  rewrite <- Hj in Hi. apply (inj (String.append BLOB_PREFIX)) in Hi.
  by apply (inj pretty) in Hi.
Qed.

Lemma apply_op_keeps c op :
  blobs_ok BLOB_PREFIX (blobs c) -> codeMap_ok ref (codeMap c) ->
  tables_ok TABLE_PREFIX (tables c) -> NoDup (map_keys (matchSequence c)) ->
  let c' :=
    apply_op BLOB_PREFIX TABLE_PREFIX ref unwrapTransform transform_name
             new_MatchSequence MatchSequence_getName c op in
  (blobs_ok BLOB_PREFIX (blobs c') /\ codeMap_ok ref (codeMap c') /\
   tables_ok TABLE_PREFIX (tables c') /\
   NoDup (map_keys (matchSequence c'))) /\
  (forall b nm, map_get (blobs c) b = Some nm ->
                map_get (blobs c') b = Some nm) /\
  (forall i t, tables c !! i = Some t -> tables c' !! i = Some t) /\
  (forall nm code, map_get (codeMap c) nm = Some code ->
                   map_get (codeMap c') nm = Some code) /\
  (forall nm m, map_get (matchSequence c) nm = Some m ->
                map_get (matchSequence c') nm = Some m).
Proof.
  intros Hb Hc Ht Hm. destruct op as [value|value|code|transform select];
    cbn [Js.apply_op].
  - pose proof (CompilationProps.blob_registered BLOB_PREFIX c value Hb) as H.
    unfold blob in *.
    destruct (map_get (blobs c) value) eqn:E; simpl in *; [done|].
    destruct H as (Hb' & _ & Hkeep). done.
  - simpl. split; [|split; [done|split; [|done]]].
    + repeat (split; [done|]). split; [|done]. by apply tables_ok_snoc.
    + intros i t Hi. by apply lookup_app_l_Some.
  - destruct (buildCode ref c code) as [[r c1]|e] eqn:E; [|done].
    destruct (CompilationProps.buildCode_Ok _ _ _ _ _ Hc E)
      as (_ & _ & Hc1 & _).
    destruct (buildCode_keeps _ _ _ _ _ E) as (-> & -> & -> & Hkeep). done.
  - unfold getMatchSequence, map_has.
    destruct (map_get (matchSequence c)
                (transform_name (unwrapTransform transform))) eqn:E;
      simpl; [done|].
    rewrite CompilationProps.map_set_fresh by done.
    split; [|split; [done|split; [done|split; [done|]]]].
    + repeat (split; [done|]). by apply CompilationProps.NoDup_keys_snoc.
    + intros nm m Hget. by apply map_get_app_l.
Qed.

Lemma apply_ops_keeps ops c :
  blobs_ok BLOB_PREFIX (blobs c) -> codeMap_ok ref (codeMap c) ->
  tables_ok TABLE_PREFIX (tables c) -> NoDup (map_keys (matchSequence c)) ->
  let c' :=
    apply_ops BLOB_PREFIX TABLE_PREFIX ref unwrapTransform transform_name
              new_MatchSequence MatchSequence_getName c ops in
  (blobs_ok BLOB_PREFIX (blobs c') /\ codeMap_ok ref (codeMap c') /\
   tables_ok TABLE_PREFIX (tables c') /\
   NoDup (map_keys (matchSequence c'))) /\
  (forall b nm, map_get (blobs c) b = Some nm ->
                map_get (blobs c') b = Some nm) /\
  (forall i t, tables c !! i = Some t -> tables c' !! i = Some t) /\
  (forall nm code, map_get (codeMap c) nm = Some code ->
                   map_get (codeMap c') nm = Some code) /\
  (forall nm m, map_get (matchSequence c) nm = Some m ->
                map_get (matchSequence c') nm = Some m).
Proof.
  revert c. induction ops as [|op rest IH]; intros c Hb Hc Ht Hm;
    cbn [Js.apply_ops fold_left]; [done|].
  destruct (apply_op_keeps c op Hb Hc Ht Hm)
    as ((Hb1 & Hc1 & Ht1 & Hm1) & K1 & K2 & K3 & K4).
  destruct (IH _ Hb1 Hc1 Ht1 Hm1) as (Hok & L1 & L2 & L3 & L4).
  split; [exact Hok|]. split; [|split; [|split]].
  - intros b nm H. by apply L1, K1.
  - intros i t H. by apply L2, K2.
  - intros nm code H. by apply L3, K3.
  - intros nm m H. by apply L4, K4.
Qed.

(** X12: the pools of a compilation stay well formed.  Whatever sequence
    of [blob], [table], [buildCode] and [getMatchSequence] calls is made on
    a fresh compilation: no map has a key twice, blob number [i] is named
    [BLOB_PREFIX + i] and table number [i] [TABLE_PREFIX + i], every Code
    object is registered under its own name, and no two blobs and no two
    tables share a name. *)
Theorem pools_stay_well_formed ops :
  let c :=
    apply_ops BLOB_PREFIX TABLE_PREFIX ref unwrapTransform transform_name
              new_MatchSequence MatchSequence_getName new_Compilation ops in
  blobs_ok BLOB_PREFIX (blobs c) /\ codeMap_ok ref (codeMap c) /\
  tables_ok TABLE_PREFIX (tables c) /\
  NoDup (map_keys (matchSequence c)) /\
  NoDup (map snd (blobs c)) /\ NoDup (map table_name (tables c)).
Proof.
  destruct (apply_ops_keeps ops new_Compilation)
    as ((Hb & Hc & Ht & Hm) & _).
  - apply (CompilationProps.pools_ok_new BLOB_PREFIX ref).
  - apply (CompilationProps.pools_ok_new BLOB_PREFIX ref).
  - intros i t Hi. simpl in Hi. by rewrite lookup_nil in Hi.
  - apply NoDup_nil_2.
  - cbn zeta. repeat (split; [done|]). split.
    + by apply blobs_ok_names.
    + by eapply tables_ok_NoDup.
Qed.

(** X13: generated names are stable.  Whatever calls follow, a Buffer keeps
    the blob name it was given, a table keeps its place and name, and a
    callback name and a matcher name keep the object registered for
    them. *)
Theorem registered_names_are_stable ops ops' :
  let c :=
    apply_ops BLOB_PREFIX TABLE_PREFIX ref unwrapTransform transform_name
              new_MatchSequence MatchSequence_getName new_Compilation ops in
  let c' :=
    apply_ops BLOB_PREFIX TABLE_PREFIX ref unwrapTransform transform_name
              new_MatchSequence MatchSequence_getName c ops' in
  (forall b nm, map_get (blobs c) b = Some nm ->
                blob BLOB_PREFIX c' b = (nm, c')) /\
  (forall i t, tables c !! i = Some t -> tables c' !! i = Some t) /\
  (forall nm code, map_get (codeMap c) nm = Some code ->
                   map_get (codeMap c') nm = Some code) /\
  (forall nm m, map_get (matchSequence c) nm = Some m ->
                map_get (matchSequence c') nm = Some m).
Proof.
  cbn zeta.
  destruct (apply_ops_keeps ops new_Compilation)
    as ((Hb & Hc & Ht & Hm) & _).
  - apply (CompilationProps.pools_ok_new BLOB_PREFIX ref).
  - apply (CompilationProps.pools_ok_new BLOB_PREFIX ref).
  - intros i t Hi. simpl in Hi. by rewrite lookup_nil in Hi.
  - apply NoDup_nil_2.
  - destruct (apply_ops_keeps ops' _ Hb Hc Ht Hm) as (_ & K1 & K2 & K3 & K4).
    split; [|done]. intros b nm H. unfold blob. by rewrite (K1 b nm H).
Qed.

End Ops.

Lemma registered_names_are_stable_witness :
  blob "llparse_blob"
       (mkCompilation [(7%positive, "llparse_blob0");
                       (8%positive, "llparse_blob1")]
                      [mkTable "llparse_table0" [1]] [] []) 7%positive
  = ("llparse_blob0",
     mkCompilation [(7%positive, "llparse_blob0");
                    (8%positive, "llparse_blob1")]
                   [mkTable "llparse_table0" [1]] [] []).
Proof.
  destruct (registered_names_are_stable "llparse_blob" "llparse_table"
              Samples.code_store Samples.unwrap Samples.transform_names
              Samples.matcher_of Samples.matcher_name
              [OpBlob 7%positive] [OpTable [1]; OpBlob 8%positive])
    as (H & _).
  exact (H 7%positive "llparse_blob0" eq_refl).
Defined.

End CompilationMore.

(** ** Reading emitted blobs and tables back *)

Module Readback.
Import Js.

Lemma hex_scan_app st s1 s2 :
  hex_scan st (s1 +:+ s2)
  = let '(o1, st1) := hex_scan st s1 in
    let '(o2, st2) := hex_scan st1 s2 in
    (o1 ++ o2, st2).
Proof.
  revert st. induction s1 as [|c s1 IH]; intros st.
  - change (EmptyString +:+ s2) with s2. cbn [hex_scan].
    destruct (hex_scan st s2); reflexivity.
  - change (String c s1 +:+ s2) with (String c (s1 +:+ s2)).
    cbn [hex_scan]. destruct (hex_step st c) as [o st']. rewrite IH.
    destruct (hex_scan st' s1) as [o1 st1].
    destruct (hex_scan st1 s2) as [o2 st2]. by rewrite app_assoc.
Qed.

Lemma hex_scan_enc b :
  hex_scan HexIdle (blob_enc b) = ([], HexDigits (Byte.to_N b)).
Proof. destruct b; vm_compute; reflexivity. Qed.

Lemma hex_scan_join b bs :
  exists o n,
    hex_scan HexIdle (join ", " (map blob_enc (b :: bs))) = (o, HexDigits n) /\
    o ++ [n] = map Byte.to_N (b :: bs).
Proof.
  revert b. induction bs as [|b' bs IH]; intros b.
  - exists [], (Byte.to_N b). cbn [map join].
    split; [apply hex_scan_enc | done].
  - destruct (IH b') as (o & n & Hscan & Hout).
    exists (Byte.to_N b :: o), n.
    change (join ", " (map blob_enc (b :: b' :: bs)))
      with (blob_enc b +:+ ", " +:+ join ", " (map blob_enc (b' :: bs))).
    rewrite hex_scan_app, hex_scan_enc. cbv iota. rewrite hex_scan_app.
    change (hex_scan (HexDigits (Byte.to_N b)) ", ")
      with ([Byte.to_N b], HexIdle).
    cbv iota. rewrite Hscan. cbn [app map] in *. by rewrite Hout.
Qed.

Lemma hex_literals_row b bs (more : bool) :
  hex_literals (("  " +:+ join ", " (map blob_enc (b :: bs)))
                  +:+ (if more then "," else EmptyString))
  = map Byte.to_N (b :: bs).
Proof.
  destruct (hex_scan_join b bs) as (o & n & Hscan & Hout).
  unfold hex_literals. rewrite hex_scan_app, hex_scan_app.
  change (hex_scan HexIdle "  ") with (@nil N, HexIdle).
  cbv iota. rewrite Hscan. cbv iota.
  destruct more; simpl; by rewrite ?app_nil_r.
Qed.

Lemma append_empty_r (s : string) : s +:+ EmptyString = s.
Proof.
  induction s as [|c s IH]; [done|].
  change (String c s +:+ EmptyString) with (String c (s +:+ EmptyString)).
  by rewrite IH.
Qed.

Lemma append_assoc (s1 s2 s3 : string) :
  (s1 +:+ s2) +:+ s3 = s1 +:+ s2 +:+ s3.
Proof.
  induction s1 as [|c s1 IH]; [done|].
  change (String c (s1 +:+ s2) +:+ s3 = String c (s1 +:+ s2 +:+ s3)).
  change (String c ((s1 +:+ s2) +:+ s3) = String c (s1 +:+ s2 +:+ s3)).
  by rewrite IH.
Qed.

Lemma hex_literals_last_row b bs :
  hex_literals ("  " +:+ join ", " (map blob_enc (b :: bs)))
  = map Byte.to_N (b :: bs).
Proof.
  rewrite <- (hex_literals_row b bs false). by rewrite append_empty_r.
Qed.

Lemma hex_literals_full_row b bs :
  hex_literals ("  " +:+ join ", " (map blob_enc (b :: bs)) +:+ ",")
  = map Byte.to_N (b :: bs).
Proof.
  rewrite <- (hex_literals_row b bs true). by rewrite append_assoc.
Qed.

Lemma blob_groups_decode n bs :
  (length bs <= n)%nat ->
  concat (map hex_literals (blob_groups bs)) = map Byte.to_N bs.
Proof.
  revert bs. induction n as [|n IH]; intros bs Hlen.
  { destruct bs; [reflexivity | simpl in Hlen; lia]. }
  destruct bs as [|a [|b [|c [|d [|e rest]]]]].
  - done.
  - cbn [blob_groups map concat]. rewrite app_nil_r.
    apply (hex_literals_last_row a []).
  - cbn [blob_groups map concat]. rewrite app_nil_r.
    apply (hex_literals_last_row a [b]).
  - cbn [blob_groups map concat]. rewrite app_nil_r.
    apply (hex_literals_last_row a [b; c]).
  - cbn [blob_groups map concat]. rewrite app_nil_r.
    apply (hex_literals_last_row a [b; c; d]).
  - change (blob_groups (a :: b :: c :: d :: e :: rest))
      with (("  " +:+ join ", " (map blob_enc [a; b; c; d]) +:+ ",")
              :: blob_groups (e :: rest)).
    pose proof (hex_literals_full_row a [b; c; d]) as Hrow.
    cbn [map concat] in *. rewrite Hrow.
    rewrite IH by (simpl in *; lia). done.
Qed.

Section Blobs.

Variable bytes : Buffer -> list byte.

(** X14: a blob can be read back from its declaration.  The lines that
    [buildBlobs] emits for a blob, between the [const] line and the closing
    one, hold exactly the bytes of the blob, in order, as their hexadecimal
    literals; the comments with the printable characters do not get in the
    way. *)
Theorem blob_artifact_reads_back blob nm :
  blob_artifact bytes blob nm
  = ("const " +:+ nm +:+ " = [") :: blob_groups (bytes blob) ++ ["];"] /\
  concat (map hex_literals (blob_groups (bytes blob)))
  = map Byte.to_N (bytes blob).
Proof.
  split; [done|]. by apply (blob_groups_decode (length (bytes blob))).
Qed.

End Blobs.

(** *** Tables *)

Lemma dec_scan_app st s1 s2 :
  dec_scan st (s1 +:+ s2)
  = let '(o1, st1) := dec_scan st s1 in
    let '(o2, st2) := dec_scan st1 s2 in
    (o1 ++ o2, st2).
Proof.
  revert st. induction s1 as [|c s1 IH]; intros st.
  - change (EmptyString +:+ s2) with s2. cbn [dec_scan].
    destruct (dec_scan st s2); reflexivity.
  - change (String c s1 +:+ s2) with (String c (s1 +:+ s2)).
    cbn [dec_scan]. destruct (dec_step st c) as [o st']. rewrite IH.
    destruct (dec_scan st' s1) as [o1 st1].
    destruct (dec_scan st1 s2) as [o2 st2]. by rewrite app_assoc.
Qed.

Lemma dec_digit_pretty d :
  (d < 10)%N -> dec_digit (pretty_N_char d) = Some d.
Proof.
  intros Hd.
  assert (d = 0 \/ d = 1 \/ d = 2 \/ d = 3 \/ d = 4 \/ d = 5 \/ d = 6
          \/ d = 7 \/ d = 8 \/ d = 9)%N as H by lia.
  destruct H as [->|[->|[->|[->|[->|[->|[->|[->|[->| ->]]]]]]]]]; reflexivity.
Qed.

Lemma dec_scan_digits x s :
  (0 < x)%N ->
  dec_scan DecIdle (pretty_N_go x s) = dec_scan (DecDigits x) s.
Proof.
  revert s. induction (N.lt_wf_0 x) as [x _ IH]; intros s Hx.
  rewrite pretty_N_go_step by done.
  assert (Hmod : (x `mod` 10 < 10)%N) by (apply N.mod_lt; lia).
  destruct (decide (x `div` 10 = 0)%N) as [Hdiv|Hdiv].
  - rewrite Hdiv, pretty_N_go_0. cbn [dec_scan]. unfold dec_step.
    rewrite dec_digit_pretty by done.
    assert (x `mod` 10 = x)%N as ->; [|by destruct (dec_scan _ s)].
    apply N.mod_small. by apply N.div_small_iff.
  - rewrite IH; [| apply N.div_lt; lia | by apply N.neq_0_lt_0].
    cbn [dec_scan]. unfold dec_step. rewrite dec_digit_pretty by done.
    assert (x `div` 10 * 10 + x `mod` 10 = x)%N as ->;
      [|by destruct (dec_scan _ s)].
    rewrite (N.div_mod x 10) at 3 by lia. lia.
Qed.

Lemma dec_scan_pretty (v : Z) :
  0 <= v -> dec_scan DecIdle (pretty v) = ([], DecDigits (Z.to_N v)).
Proof.
  intros Hv. destruct v as [|p|p]; [done| |lia].
  change (pretty (Z.pos p)) with (pretty_N_go (N.pos p) EmptyString).
  by rewrite dec_scan_digits.
Qed.

Lemma dec_scan_join v vs :
  0 <= v -> Forall (fun w => 0 <= w) vs ->
  exists o n,
    dec_scan DecIdle (join ", " (map pretty (v :: vs))) = (o, DecDigits n) /\
    o ++ [n] = map Z.to_N (v :: vs).
Proof.
  intros Hv Hvs. revert v Hv. induction Hvs as [|v' vs Hv' _ IH]; intros v Hv.
  - exists [], (Z.to_N v). cbn [map join].
    split; [by apply dec_scan_pretty | done].
  - destruct (IH v' Hv') as (o & n & Hscan & Hout).
    exists (Z.to_N v :: o), n.
    change (join ", " (map pretty (v :: v' :: vs)))
      with (pretty v +:+ ", " +:+ join ", " (map pretty (v' :: vs))).
    rewrite dec_scan_app, dec_scan_pretty by done. cbv iota.
    rewrite dec_scan_app.
    change (dec_scan (DecDigits (Z.to_N v)) ", ")
      with ([Z.to_N v], DecIdle).
    cbv iota. rewrite Hscan. cbn [app map] in *. by rewrite Hout.
Qed.

Lemma dec_literals_row vs (more : bool) :
  vs <> [] -> Forall (fun w => 0 <= w) vs ->
  dec_literals (let line := "  " +:+ join ", " (map pretty vs) in
                if more then line +:+ "," else line)
  = map Z.to_N vs.
Proof.
  intros Hne Hvs. destruct vs as [|v vs]; [done|].
  apply Forall_cons in Hvs as [Hv Hvs].
  destruct (dec_scan_join v vs Hv Hvs) as (o & n & Hscan & Hout).
  unfold dec_literals. cbn zeta. destruct more.
  - rewrite dec_scan_app, dec_scan_app.
    change (dec_scan DecIdle "  ") with (@nil N, DecIdle).
    cbv iota. rewrite Hscan. simpl. by rewrite app_nil_r.
  - rewrite dec_scan_app.
    change (dec_scan DecIdle "  ") with (@nil N, DecIdle).
    cbv iota. by rewrite Hscan.
Qed.

Lemma table_rows_decode fuel value i :
  (length value - i <= fuel)%nat ->
  Forall (fun w => 0 <= w) value ->
  concat (map dec_literals (table_rows fuel value i))
  = map Z.to_N (drop i value).
Proof.
  intros Hfuel Hvalue. revert i Hfuel.
  induction fuel as [|fuel IH]; intros i Hfuel; simpl.
  - by rewrite drop_ge by lia.
  - destruct (i <? length value)%nat eqn:Hi.
    + apply Nat.ltb_lt in Hi. cbn [map concat].
      rewrite (dec_literals_row (take TABLE_GROUP_SIZE (drop i value))).
      * rewrite IH by (unfold TABLE_GROUP_SIZE; lia).
        rewrite <- map_app. apply (f_equal (map Z.to_N)).
        rewrite <- drop_drop. apply take_drop.
      * intros Hnil. apply (f_equal length) in Hnil.
        rewrite length_take, length_drop in Hnil.
        unfold TABLE_GROUP_SIZE in Hnil. cbn [length] in Hnil. lia.
      * by apply Forall_take, Forall_drop.
    + apply Nat.ltb_ge in Hi. by rewrite drop_ge.
Qed.



End Readback.

(** ** Blob interning and the emitted declarations *)

Module BlobProps.
Import Js.

Lemma blob_groups_indented n bs :
  (length bs <= n)%nat ->
  Forall (fun row => exists rest, row = "  " +:+ rest) (blob_groups bs).
Proof.
  revert bs. induction n as [|n IH]; intros bs Hlen.
  { destruct bs; [constructor | simpl in Hlen; lia]. }
  destruct bs as [|a [|b [|c [|d [|e rest]]]]].
  - constructor.
  - cbn [blob_groups]. repeat constructor. eauto.
  - cbn [blob_groups]. repeat constructor. eauto.
  - cbn [blob_groups]. repeat constructor. eauto.
  - cbn [blob_groups]. repeat constructor. eauto.
  - change (blob_groups (a :: b :: c :: d :: e :: rest))
      with (("  " +:+ join ", " (map blob_enc [a; b; c; d]) +:+ ",")
              :: blob_groups (e :: rest)).
    constructor; [eauto|]. apply IH. simpl in *. lia.
Qed.

Section Blobs.

Variable BLOB_PREFIX : string.
Variable bytes : Buffer -> list byte.

(** C10: blobs are interned by object identity.  A second call with the
    same Buffer returns the same name and leaves the compilation as it is.
    Two different Buffer objects, whatever their bytes, get different
    names, each the prefix followed by the number of its entry.  What
    [buildBlobs] appends to the output is one declaration per entry, in the
    order of the entries, and a closing empty line; the declaration of an
    entry is the line that opens the array constant of the entry's name,
    rows that start with two blanks and hold the bytes of the Buffer as
    their hexadecimal literals, and the line that closes the array.  The
    two Buffers, being two entries, are thus emitted as two declarations,
    each under its own name. *)
Theorem blob_interned_by_identity c b1 b2 out :
  blobs_ok BLOB_PREFIX (blobs c) ->
  let '(n1, c1) := blob BLOB_PREFIX c b1 in
  let '(n2, c2) := blob BLOB_PREFIX c1 b2 in
  blob BLOB_PREFIX c1 b1 = (n1, c1) /\
  (b1 <> b2 ->
     n1 <> n2 /\
     exists i1 i2,
       i1 <> i2 /\
       blobs c2 !! i1 = Some (b1, n1) /\ n1 = BLOB_PREFIX +:+ pretty i1 /\
       blobs c2 !! i2 = Some (b2, n2) /\ n2 = BLOB_PREFIX +:+ pretty i2 /\
       exists artifacts : list (list string),
         buildBlobs bytes c2 out = out ++ concat artifacts ++ [EmptyString] /\
         length artifacts = length (blobs c2) /\
         forall i b nm,
           blobs c2 !! i = Some (b, nm) ->
           exists rows,
             artifacts !! i
             = Some (("const " +:+ nm +:+ " = [") :: rows ++ ["];"]) /\
             Forall (fun row => exists rest, row = "  " +:+ rest) rows /\
             concat (map hex_literals rows) = map Byte.to_N (bytes b)).
Proof.
  intros Hok.
  pose proof (CompilationProps.blob_registered BLOB_PREFIX c b1 Hok) as H1.
  destruct (blob BLOB_PREFIX c b1) as [n1 c1].
  destruct H1 as (Hok1 & Hget1 & _).
  pose proof (CompilationProps.blob_registered BLOB_PREFIX c1 b2 Hok1) as H2.
  destruct (blob BLOB_PREFIX c1 b2) as [n2 c2].
  destruct H2 as (Hok2 & Hget2 & Hkeep).
  split.
  { unfold blob. by rewrite Hget1. }
  intros Hne. apply Hkeep in Hget1.
  apply CompilationProps.map_get_Some, list_elem_of_lookup in Hget1
    as [i1 Hi1].
  apply CompilationProps.map_get_Some, list_elem_of_lookup in Hget2
    as [i2 Hi2].
  destruct Hok2 as [Hnd Hnm].
  pose proof (Hnm _ _ _ Hi1) as Hn1. pose proof (Hnm _ _ _ Hi2) as Hn2.
  assert (Hidx : i1 <> i2).
  { intros ->. rewrite Hi1 in Hi2. by injection Hi2 as -> _. }
  split.
  { rewrite Hn1, Hn2. intros Heq. apply Hidx.
    apply (inj (String.append BLOB_PREFIX)) in Heq.
    by apply (inj pretty) in Heq. }
  exists i1, i2. repeat (split; [done|]).
  exists (map (fun '(b, nm) => blob_artifact bytes b nm) (blobs c2)).
  split; [|split].
  - apply CompilationProps.buildBlobs_artifacts.
    intros Hnil. by rewrite Hnil, lookup_nil in Hi1.
  - apply length_map.
  - intros i b nm Hi. exists (blob_groups (bytes b)).
    split; [|split].
    + rewrite list_lookup_fmap, Hi. done.
    + by apply (blob_groups_indented (length (bytes b))).
    + by apply (Readback.blob_groups_decode (length (bytes b))).
Qed.

End Blobs.

Lemma blob_interned_by_identity_witness :
  Samples.buffer_store 1%positive = Samples.buffer_store 2%positive /\
  let '(n1, c1) := blob "llparse_blob" new_Compilation 1%positive in
  let '(n2, c2) := blob "llparse_blob" c1 2%positive in
  n1 = "llparse_blob0" /\ n2 = "llparse_blob1" /\ n1 <> n2 /\
  blob "llparse_blob" c1 1%positive = (n1, c1) /\
  buildBlobs Samples.buffer_store c2 []
  = ["const llparse_blob0 = [";
     "  /* 'G' */ 0x47, /* 'E' */ 0x45, /* 'T' */ 0x54";
     "];";
     "const llparse_blob1 = [";
     "  /* 'G' */ 0x47, /* 'E' */ 0x45, /* 'T' */ 0x54";
     "];";
     EmptyString].
Proof.
  split; [reflexivity|].
  pose proof (blob_interned_by_identity "llparse_blob" Samples.buffer_store
                new_Compilation 1%positive 2%positive []) as H.
  simpl in H. simpl. destruct H as [Hsame H].
  { apply (CompilationProps.pools_ok_new "llparse_blob" Samples.code_store). }
  destruct H as [H _]; [discriminate|].
  split; [reflexivity|]. split; [reflexivity|]. split; [exact H|].
  split; [exact Hsame | reflexivity].
Defined.

End BlobProps.

(** ** Further properties of the dispatch nodes *)

Module TableLookupMore.
Import Js Js.TableLookup.

Lemma first_owner_Some es index k i :
  first_owner es index k = Some i ->
  exists e, (index <= i)%nat /\ es !! (i - index)%nat = Some e /\ k ∈ keys e.
Proof.
  revert index. induction es as [|e0 rest IH]; intros index; simpl; [done|].
  destruct (bool_decide (k ∈ keys e0)) eqn:Hk.
  - intros [= <-]. apply bool_decide_eq_true_1 in Hk.
    exists e0. rewrite Nat.sub_diag. done.
  - intros (e & Hle & He & Hin)%IH. exists e. split; [lia|]. split; [|done].
    replace (i - index)%nat with (S (i - S index)) by lia. done.
Qed.

Lemma table_get_index (tbl : list Z) (j : nat) :
  table_get tbl (Z.of_nat j) = tbl !! j.
Proof.
  unfold table_get.
  destruct (Z.of_nat j <? 0) eqn:E; [apply Z.ltb_lt in E; lia|].
  by rewrite Nat2Z.id.
Qed.

Section Build.

Variable TABLE_PREFIX : string.

(** X16: [buildTable] succeeds exactly on key sets.  The table is built
    when every keys array lists values in 0..255 without a repeat and no
    value is listed by two edges, and only then: a key below 0 or above
    255, or a key repeated within one edge's array, also make it throw.
    The only exception it throws is the AssertionError. *)
Theorem buildTable_succeeds_exactly_on_key_sets this ctx :
  (Forall key_set (edges this) -> pairwise_disjoint (edges this) ->
   exists tbl,
     buildTable TABLE_PREFIX this ctx = Ok (table TABLE_PREFIX ctx tbl)) /\
  (forall r,
     buildTable TABLE_PREFIX this ctx = Ok r ->
     Forall key_set (edges this) /\ pairwise_disjoint (edges this)) /\
  (forall e, buildTable TABLE_PREFIX this ctx = Throw e ->
             e = AssertionError None) /\
  (forall edge k,
     edge ∈ edges this -> k ∈ keys edge -> ~ is_byte k ->
     buildTable TABLE_PREFIX this ctx = Throw (AssertionError None)) /\
  (forall edge,
     edge ∈ edges this -> ~ NoDup (keys edge) ->
     buildTable TABLE_PREFIX this ctx = Throw (AssertionError None)).
Proof.
  assert (Hok : forall r,
            buildTable TABLE_PREFIX this ctx = Ok r ->
            Forall key_set (edges this) /\ pairwise_disjoint (edges this)).
  { intros r. unfold buildTable.
    destruct (fill_edges _ (edges this) 0) as [tbl|] eqn:Hfill; [|done].
    intros _.
    apply TableLookupProps.fill_edges_Filled in Hfill
      as (_ & Hnd & Hdis & Hzero & _).
    split; [|done]. apply Forall_forall. intros e He. split.
    - rewrite Forall_forall in Hnd. by apply Hnd.
    - apply Forall_forall. intros k Hk.
      eapply TableLookupProps.table_get_is_byte; [|by apply (Hzero e k)].
      by rewrite length_replicate. }
  assert (Hthrow : forall e, buildTable TABLE_PREFIX this ctx = Throw e ->
                             e = AssertionError None).
  { intros e. unfold buildTable.
    destruct (fill_edges _ (edges this) 0); [done|]. by intros [= <-]. }
  split; [|split; [done|split; [done|split]]].
  - intros Hsets Hdis. unfold buildTable.
    destruct (TableLookupProps.fill_edges_total
                (replicate (Z.to_nat (MAX_CHAR + 1)) 0) (edges this) 0)
      as [tbl Hfill]; [| done | |].
    + eapply Forall_impl; [exact Hsets|]. by intros e [? _].
    + intros e k He Hk. apply TableLookupProps.table_get_initial.
      rewrite Forall_forall in Hsets. destruct (Hsets e He) as [_ Hbytes].
      rewrite Forall_forall in Hbytes. by apply Hbytes.
    + exists tbl. by rewrite Hfill.
  - intros edge k He Hk Hbyte.
    destruct (buildTable TABLE_PREFIX this ctx) as [r|e] eqn:E.
    + destruct (Hok r eq_refl) as [Hsets _]. exfalso. apply Hbyte.
      rewrite Forall_forall in Hsets. destruct (Hsets edge He) as [_ Hb].
      rewrite Forall_forall in Hb. by apply Hb.
    + by rewrite (Hthrow e eq_refl).
  - intros edge He Hdup.
    destruct (buildTable TABLE_PREFIX this ctx) as [r|e] eqn:E.
    + destruct (Hok r eq_refl) as [Hsets _]. exfalso. apply Hdup.
      rewrite Forall_forall in Hsets. by destruct (Hsets edge He).
    + by rewrite (Hthrow e eq_refl).
Qed.

Lemma built_table_inv this ctx nm ctx' :
  buildTable TABLE_PREFIX this ctx = Ok (nm, ctx') ->
  exists tbl,
    tables ctx' = tables ctx ++ [mkTable nm tbl] /\
    nm = TABLE_PREFIX +:+ pretty (length (tables ctx)) /\
    length tbl = 256%nat /\
    Forall (fun v => 0 <= v <= Z.of_nat (length (edges this))) tbl /\
    forall k v,
      table_get tbl k = Some v -> v <> 0 ->
      exists e, edges this !! Z.to_nat (v - 1) = Some e /\ k ∈ keys e.
Proof.
  unfold buildTable.
  destruct (fill_edges _ (edges this) 0) as [tbl|] eqn:Hfill; [|done].
  intros [= <- <-]. exists tbl.
  apply TableLookupProps.fill_edges_Filled in Hfill
    as (Hlen & _ & _ & _ & Hread).
  split; [done|]. split; [done|]. split.
  { by rewrite Hlen, length_replicate. }
  assert (Hentry : forall k v,
            table_get tbl k = Some v ->
            v = 0 \/ exists i e, v = Z.of_nat i + 1 /\
                                 edges this !! i = Some e /\ k ∈ keys e).
  { intros k v Hv. rewrite Hread in Hv.
    destruct (first_owner (edges this) 0 k) as [i|] eqn:Hown.
    - right. injection Hv as <-.
      apply first_owner_Some in Hown as (e & _ & He & Hk).
      rewrite Nat.sub_0_r in He. by exists i, e.
    - left. by apply TableLookupProps.table_get_replicate in Hv. }
  split.
  - apply Forall_lookup. intros j v Hj. rewrite <- table_get_index in Hj.
    destruct (Hentry _ _ Hj) as [->|(i & e & -> & He & _)]; [lia|].
    apply lookup_lt_Some in He. lia.
  - intros k v Hv Hnz.
    destruct (Hentry _ _ Hv) as [->|(i & e & -> & He & Hk)]; [done|].
    exists e. split; [|done].
    by replace (Z.to_nat (Z.of_nat i + 1 - 1)) with i by lia.
Qed.

(** X17: what a built table holds.  The table that [buildTable] registers
    is the last table of the compilation, under the name that is returned;
    it has 256 entries, each between 0 and the number of edges, and a
    nonzero entry [v] for byte [k] means that edge number [v - 1] lists
    [k]. *)
Theorem buildTable_entries_name_edges this ctx nm ctx' :
  buildTable TABLE_PREFIX this ctx = Ok (nm, ctx') ->
  exists tbl,
    tables ctx' = tables ctx ++ [mkTable nm tbl] /\
    nm = TABLE_PREFIX +:+ pretty (length (tables ctx)) /\
    length tbl = 256%nat /\
    Forall (fun v => 0 <= v <= Z.of_nat (length (edges this))) tbl /\
    forall k v,
      table_get tbl k = Some v -> v <> 0 ->
      exists e, edges this !! Z.to_nat (v - 1) = Some e /\ k ∈ keys e.
Proof. apply built_table_inv. Qed.



End Build.

Lemma buildTable_succeeds_exactly_on_key_sets_witness :
  buildTable "llparse_table"
    (mkRef [mkEdge [97; 256] 10%positive false]
           (mkTarget true 12%positive None) 1%positive) new_Compilation
  = Throw (AssertionError None) /\
  buildTable "llparse_table"
    (mkRef [mkEdge [97; 97] 10%positive false]
           (mkTarget true 12%positive None) 1%positive) new_Compilation
  = Throw (AssertionError None).
Proof.
  split.
  - destruct (buildTable_succeeds_exactly_on_key_sets "llparse_table"
                (mkRef [mkEdge [97; 256] 10%positive false]
                       (mkTarget true 12%positive None) 1%positive)
                new_Compilation) as (_ & _ & _ & H & _).
    apply (H (mkEdge [97; 256] 10%positive false) 256).
    + apply list_elem_of_here.
    + apply list_elem_of_further, list_elem_of_here.
    + unfold is_byte, MAX_CHAR. lia.
  - destruct (buildTable_succeeds_exactly_on_key_sets "llparse_table"
                (mkRef [mkEdge [97; 97] 10%positive false]
                       (mkTarget true 12%positive None) 1%positive)
                new_Compilation) as (_ & _ & _ & _ & H).
    apply (H (mkEdge [97; 97] 10%positive false)).
    + apply list_elem_of_here.
    + simpl. intros [Hin _]%NoDup_cons. apply Hin, list_elem_of_here.
Defined.

Lemma buildTable_entries_name_edges_witness :
  exists tbl,
    tables (table "llparse_table" new_Compilation tbl).2
    = [mkTable "llparse_table0" tbl] /\
    Forall (fun v => 0 <= v <= 2) tbl.
Proof.
  destruct (TableLookupProps.fill_edges_total
              (replicate (Z.to_nat (MAX_CHAR + 1)) 0)
              (edges Samples.lower_upper) 0) as [tbl Hfill].
  - eapply Forall_impl; [exact TableLookupProps.lower_upper_key_sets|].
    by intros e [? _].
  - exact TableLookupProps.lower_upper_disjoint.
  - intros e k He Hk. apply TableLookupProps.table_get_initial.
    pose proof TableLookupProps.lower_upper_key_sets as Hsets.
    rewrite Forall_forall in Hsets. destruct (Hsets e He) as [_ Hbytes].
    rewrite Forall_forall in Hbytes. by apply Hbytes.
  - destruct (buildTable_entries_name_edges "llparse_table"
                Samples.lower_upper new_Compilation "llparse_table0"
                (table "llparse_table" new_Compilation tbl).2)
      as (tbl' & Htables & _ & _ & Hbound & _).
    { unfold buildTable. by rewrite Hfill. }
    exists tbl'. split; [|exact Hbound].
    simpl in Htables. injection Htables as ->. reflexivity.
Defined.


End TableLookupMore.

Module SingleProps.
Import Js Js.TableLookup Js.Single.

Lemma pretty_N_char_not_slash d : Ascii.eqb "/" (pretty_N_char d) = false.
Proof. unfold pretty_N_char. by repeat case_match. Qed.

Lemma pretty_N_go_head x s :
  (0 < x)%N -> exists d r, pretty_N_go x s = String (pretty_N_char d) r.
Proof.
  revert s. induction (N.lt_wf_0 x) as [x _ IH]; intros s Hx.
  rewrite pretty_N_go_step by done.
  destruct (decide (x `div` 10 = 0)%N) as [Hdiv|Hdiv].
  - rewrite Hdiv, pretty_N_go_0. eauto.
  - apply IH; [apply N.div_lt; lia | by apply N.neq_0_lt_0].
Qed.

Lemma pretty_Z_head (k : Z) :
  exists c r, pretty k = String c r /\ Ascii.eqb "/" c = false.
Proof.
  destruct k as [|p|p].
  - by exists "0"%char, EmptyString.
  - change (pretty (Z.pos p)) with (pretty_N_go (N.pos p) EmptyString).
    destruct (pretty_N_go_head (N.pos p) EmptyString) as (d & r & ->); [lia|].
    exists (pretty_N_char d), r. split; [done|]. apply pretty_N_char_not_slash.
  - exists "-"%char, (pretty p). done.
Qed.

Lemma drop_comment_numeral (k : Z) s :
  drop_comment (pretty k +:+ s) = pretty k +:+ s.
Proof.
  destruct (pretty_Z_head k) as (c & r & -> & Hc).
  unfold drop_comment.
  change (String c r +:+ s) with (String c (r +:+ s)).
  cbn [strip_prefix]. by rewrite Hc.
Qed.

Lemma drop_comment_label k :
  drop_comment (case_label k +:+ ": {") = pretty k +:+ ": {".
Proof.
  unfold case_label.
  destruct (negb ((k <? 32) || (k >? 126) || (k =? 39)));
    [reflexivity | apply drop_comment_numeral].
Qed.

Lemma is_case_of_header k v :
  is_case_of v ("  case " +:+ case_label k +:+ ": {") = (k =? v).
Proof.
  unfold is_case_of.
  change (strip_prefix "  case " ("  case " +:+ case_label k +:+ ": {"))
    with (Some (case_label k +:+ ": {")).
  cbv iota beta. rewrite drop_comment_label. destruct (Z.eqb_spec k v) as [->|Hne].
  - apply String.eqb_refl.
  - apply String.eqb_neq. intros H.
    apply TableLookupProps.append_inj_r in H. by apply (inj pretty) in H.
Qed.

Lemma find_case_padded v body rest :
  find_case v (map (fun line => "    " +:+ line) body ++ rest)
  = find_case v rest.
Proof.
  induction body as [|line body IH]; [done|].
  cbn [map app find_case].
  change (is_case_of v ("    " +:+ line)) with false. by cbv iota.
Qed.

Section Build.

Variables ARG_BUF ARG_OFF : string.
Variable prologue : Single.Ref -> list string.
Variable tailTo : Target -> list string.
Variable Transform_build : Transform -> string -> string.

Lemma single_cases_app out es :
  Single.build_cases tailTo out es
  = out ++ Single.build_cases tailTo [] es.
Proof.
  revert out. induction es as [|e rest IH]; intros out.
  - simpl. by rewrite app_nil_r.
  - cbn [Single.build_cases]. rewrite IH. symmetry. rewrite IH.
    unfold indent. by rewrite <- !app_assoc.
Qed.

Lemma single_cases_cons e rest :
  Single.build_cases tailTo [] (e :: rest)
  = ("  case " +:+ case_label (key e) +:+ ": {")
      :: map (fun line => "    " +:+ line)
             (tailTo (mkTarget (Single.noAdvance e) (Single.node e)
                               (value e)))
      ++ "  }" :: Single.build_cases tailTo [] rest.
Proof.
  cbn [Single.build_cases]. rewrite single_cases_app. unfold indent.
  cbn [app]. by rewrite <- !app_assoc.
Qed.

Lemma find_case_cases v es rest :
  find_case v (Single.build_cases tailTo [] es ++ rest)
  = match List.find (fun e => key e =? v) es with
    | Some e =>
        Some (map (fun line => "    " +:+ line)
                  (tailTo (mkTarget (Single.noAdvance e) (Single.node e)
                                    (value e))))
    | None => find_case v rest
    end.
Proof.
  induction es as [|e es IH]; [done|].
  rewrite single_cases_cons. cbn [app find_case List.find].
  rewrite is_case_of_header. destruct (key e =? v).
  - rewrite <- app_assoc. cbn [app].
    by rewrite TableLookupProps.block_body_padded.
  - rewrite <- app_assoc, find_case_padded. cbn [app find_case].
    change (is_case_of v "  }") with false. cbv iota. apply IH.
Qed.

Lemma find_default_past_cases es rest :
  find_block "  default: {" (Single.build_cases tailTo [] es ++ rest)
  = find_block "  default: {" rest.
Proof.
  induction es as [|e es IH]; [done|].
  rewrite single_cases_cons. cbn [app find_block].
  change (String.eqb ("  case " +:+ case_label (key e) +:+ ": {")
                     "  default: {") with false.
  cbv iota. rewrite <- app_assoc.
  rewrite TableLookupProps.find_block_padded
    by (intros; apply TableLookupProps.padded_not_default).
  cbn [app find_block]. apply IH.
Qed.

(** X18: the switch of a single-byte dispatch node.  For every value of
    the byte, the emitted switch runs the jump of the first edge whose key
    is that value, whether or not the case label carries a character
    comment, and the jump of the otherwise edge when no edge has the key;
    [doBuild] puts the switch after what was emitted before and the
    prologue. *)
Theorem single_switch_routes_by_key this out v :
  let sw :=
    Single.build_switch ARG_BUF ARG_OFF tailTo Transform_build this [] in
  Single.doBuild ARG_BUF ARG_OFF prologue tailTo Transform_build this out
  = out ++ prologue this ++ sw /\
  Single.switch_route sw v
  = map (fun line => "    " +:+ line)
        (tailTo
           match List.find (fun e => key e =? v) (Single.edges this) with
           | Some e =>
               mkTarget (Single.noAdvance e) (Single.node e) (value e)
           | None => Single.otherwise this
           end).
Proof.
  cbn zeta. unfold Single.doBuild, Single.build_switch, indent. split.
  - rewrite single_cases_app. symmetry. rewrite single_cases_app.
    by rewrite <- !app_assoc.
  - rewrite single_cases_app. cbn [app]. rewrite <- !app_assoc. cbn [app].
    unfold Single.switch_route. cbn [find_case].
    match goal with
    | |- context [is_case_of v (String.append "switch (" ?x)] =>
        change (is_case_of v ("switch (" +:+ x)) with false
    end.
    cbv iota. rewrite find_case_cases.
    destruct (List.find (fun e => key e =? v) (Single.edges this)); [done|].
    cbn [find_case]. change (is_case_of v "  default: {") with false.
    cbv iota. rewrite find_case_padded. cbn [find_case].
    change (is_case_of v "  }") with false.
    change (is_case_of v "}") with false. cbv iota.
    cbn [find_block].
    match goal with
    | |- context [String.eqb (String.append "switch (" ?x) "  default: {"] =>
        change (String.eqb ("switch (" +:+ x) "  default: {") with false
    end.
    cbv iota. rewrite find_default_past_cases. cbn [find_block].
    rewrite String.eqb_refl. by rewrite TableLookupProps.block_body_padded.
Qed.

End Build.

End SingleProps.

(** ** The base class of callback code *)

Module CodeProps.
Import Bitcode Bitcode.Code.

Section Base.

Variable IRSignature : Type.
Variables callback_match callback_value callback_span : IRSignature.
Variables ARG_STATE ARG_POS ARG_ENDPOS ARG_MATCH : string.
Variables Attribute AttributeList : Type.
Variables ATTR_STATE ATTR_POS ATTR_ENDPOS ATTR_MATCH : Attribute.
Variable add : AttributeList -> Attribute -> AttributeList.


End Base.


End CodeProps.
